(** * The symbolic intensity model of docs/widget.ipynb

    The notebook builds the two-pseudoscalar intensity as a SymPy expression
    tree, unfolds it with [doit], substitutes parameters with [xreplace],
    compiles it with [lambdify] and drives the compiled function from
    ipywidgets sliders.

    The expression tree is embedded as an inductive type with one constructor
    per node kind that the notebook builds.  Nodes are kept as they are
    written: SymPy's automatic normalisation of sums and products (flattening,
    sorting of arguments, collecting equal terms) is not modelled; it changes
    neither the value of a tree nor which symbols occur in it, but it merges
    the terms of a flip index that is listed twice.  The libraries also refuse
    some inputs that the trees here accept: ampform's [PoolSum] raises
    [ValueError] for an empty range, and unfolding a harmonic whose order
    exceeds its degree raises [ValueError] in SymPy.  The ranges on which
    none of this happens are the [valid_ranges] below; statements about node
    counts and about what [doit] returns are made for them.  The numeric layer
    is exact: NumPy's floating-point numbers are read as real and complex
    numbers. *)

From Stdlib Require Import List String Ascii ZArith Bool Arith Lia.
From Stdlib Require Import DecimalString Sorted Permutation.
From Stdlib Require Import Reals Lra.
Import ListNotations.

Local Open Scope string_scope.
Local Open Scope list_scope.
Local Open Scope Z_scope.

(** ** Expression trees *)

(** An index slot (a subscript of an [IndexedBase], the degree or the order of
    a harmonic) holds an index symbol or, after a pool sum was unfolded, an
    integer. *)
Inductive index : Type :=
| IVar (name : string)
| IVal (z : Z).

#[warnings="-register-all"]
Inductive expr : Type :=
| Int (z : Z)                               (* sp.Integer, sp.Rational(n) *)
| Pi                                        (* sp.pi *)
| ImagI                                     (* sp.I *)
| Sym (name : string)                       (* sp.Symbol(name) *)
| Indexed (base : string) (i j : index)     (* sp.IndexedBase(base)[i, j] *)
| Add (args : list expr)
| Mul (args : list expr)
| Pow (b : expr) (n : nat)                  (* b ** n *)
| Abs (a : expr)
| Re (a : expr)
| Im (a : expr)
| Exp (a : expr)
| Ynm (n m : index) (theta phi : expr)
| Znm (n m : index) (theta phi Phi : expr)
| PoolSum (body : expr) (indices : list (string * list Z)).

(** The symbols that [free_symbols] can report: plain symbols, indexed
    coefficients and the [IndexedBase] objects themselves. *)
Inductive symb : Type :=
| SymS (name : string)
| IdxS (base : string) (i j : index)
| BaseS (base : string).

Definition index_eq_dec (a b : index) : {a = b} + {a <> b}.
Proof. decide equality; [apply string_dec | apply Z.eq_dec]. Defined.

Definition symb_eq_dec (a b : symb) : {a = b} + {a <> b}.
Proof. decide equality; try apply string_dec; apply index_eq_dec. Defined.

Definition isinstance_Indexed (s : symb) : bool :=
  match s with IdxS _ _ _ => true | _ => false end.

(** Induction over trees with the list arguments of [Add] and [Mul]. *)
Section expr_induction.
Variable P : expr -> Prop.
Hypothesis HInt : forall z, P (Int z).
Hypothesis HPi : P Pi.
Hypothesis HImagI : P ImagI.
Hypothesis HSym : forall s, P (Sym s).
Hypothesis HIndexed : forall b i j, P (Indexed b i j).
Hypothesis HAdd : forall es, Forall P es -> P (Add es).
Hypothesis HMul : forall es, Forall P es -> P (Mul es).
Hypothesis HPow : forall b n, P b -> P (Pow b n).
Hypothesis HAbs : forall a, P a -> P (Abs a).
Hypothesis HRe : forall a, P a -> P (Re a).
Hypothesis HIm : forall a, P a -> P (Im a).
Hypothesis HExp : forall a, P a -> P (Exp a).
Hypothesis HYnm : forall n m t p, P t -> P p -> P (Ynm n m t p).
Hypothesis HZnm : forall n m t p f, P t -> P p -> P f -> P (Znm n m t p f).
Hypothesis HPoolSum : forall b idx, P b -> P (PoolSum b idx).

Fixpoint expr_rect_list (e : expr) : P e :=
    let all := fix all (es : list expr) : Forall P es :=
      match es with
      | [] => Forall_nil P
      | x :: xs => Forall_cons x (expr_rect_list x) (all xs)
      end in
    match e with
    | Int z => HInt z
    | Pi => HPi
    | ImagI => HImagI
    | Sym s => HSym s
    | Indexed b i j => HIndexed b i j
    | Add es => HAdd es (all es)
    | Mul es => HMul es (all es)
    | Pow b n => HPow b n (expr_rect_list b)
    | Abs a => HAbs a (expr_rect_list a)
    | Re a => HRe a (expr_rect_list a)
    | Im a => HIm a (expr_rect_list a)
    | Exp a => HExp a (expr_rect_list a)
    | Ynm n m t p => HYnm n m t p (expr_rect_list t) (expr_rect_list p)
    | Znm n m t p f =>
        HZnm n m t p f (expr_rect_list t) (expr_rect_list p) (expr_rect_list f)
    | PoolSum b idx => HPoolSum b idx (expr_rect_list b)
    end.
End expr_induction.

(** ** Printing symbols: [str(s)] *)

Definition str_Z (z : Z) : string := NilZero.string_of_int (Z.to_int z).

Definition str_index (i : index) : string :=
  match i with IVar s => s | IVal z => str_Z z end.

(** [str] of a symbol; for an [Indexed] it is also its [.name]. *)
Definition str_symb (s : symb) : string :=
  match s with
  | SymS n => n
  | BaseS b => b
  | IdxS b i j => b ++ "[" ++ str_index i ++ ", " ++ str_index j ++ "]"
  end.

(** ** Substitution of pool indices and [doit] *)

Definition assignment := list (string * Z).

Fixpoint lookup (s : string) (c : assignment) : option Z :=
  match c with
  | [] => None
  | (k, v) :: rest => if string_dec s k then Some v else lookup s rest
  end.

Definition subs_index (c : assignment) (i : index) : index :=
  match i with
  | IVar s => match lookup s c with Some v => IVal v | None => i end
  | IVal _ => i
  end.

(** [expr.subs(zip(indices, combi))]: every occurrence of an index symbol is
    replaced by its value. *)
Fixpoint subs (c : assignment) (e : expr) : expr :=
  match e with
  | Int _ | Pi | ImagI => e
  | Sym s => match lookup s c with Some v => Int v | None => e end
  | Indexed b i j => Indexed b (subs_index c i) (subs_index c j)
  | Add es => Add (map (subs c) es)
  | Mul es => Mul (map (subs c) es)
  | Pow b n => Pow (subs c b) n
  | Abs a => Abs (subs c a)
  | Re a => Re (subs c a)
  | Im a => Im (subs c a)
  | Exp a => Exp (subs c a)
  | Ynm n m t p => Ynm (subs_index c n) (subs_index c m) (subs c t) (subs c p)
  | Znm n m t p f =>
      Znm (subs_index c n) (subs_index c m) (subs c t) (subs c p) (subs c f)
  | PoolSum b idx => PoolSum (subs c b) idx
  end.

(** [itertools.product] over the index ranges, zipped with the index symbols:
    the first index varies slowest. *)
Fixpoint product (idx : list (string * list Z)) : list assignment :=
  match idx with
  | [] => [[]]
  | (s, vs) :: rest =>
      flat_map (fun v => map (cons (s, v)) (product rest)) vs
  end.

(** [Znm.evaluate]: [Ynm(n, m, theta, phi) * sp.exp(-sp.I * Phi)]. *)
Definition Znm_evaluate (n m : index) (theta phi Phi : expr) : expr :=
  Mul [Ynm n m theta phi; Exp (Mul [Int (-1); ImagI; Phi])].

(** [doit] with a pending substitution: [doit_subs c e] is the deep [doit] of
    [e.subs(c)].  Entries at the front of [c] were substituted first.  A pool
    sum evaluates to the sum of its body over all index combinations, a [Znm]
    to the product given by its [evaluate]; [implement_doit_method] then calls
    [doit] on what [evaluate] returned.  The nodes of the result are kept as
    they are written here: equal addends are not collected, and a [Ynm] stays
    an inert node whatever its order is, where SymPy rewrites harmonics of
    order zero or below and raises [ValueError] when the order exceeds the
    degree. *)
Fixpoint doit_subs (c : assignment) (e : expr) : expr :=
  match e with
  | Int _ | Pi | ImagI => e
  | Sym s => match lookup s c with Some v => Int v | None => e end
  | Indexed b i j => Indexed b (subs_index c i) (subs_index c j)
  | Add es => Add (map (doit_subs c) es)
  | Mul es => Mul (map (doit_subs c) es)
  | Pow b n => Pow (doit_subs c b) n
  | Abs a => Abs (doit_subs c a)
  | Re a => Re (doit_subs c a)
  | Im a => Im (doit_subs c a)
  | Exp a => Exp (doit_subs c a)
  | Ynm n m t p =>
      Ynm (subs_index c n) (subs_index c m) (doit_subs c t) (doit_subs c p)
  | Znm n m t p f =>
      Znm_evaluate (subs_index c n) (subs_index c m)
        (doit_subs c t) (doit_subs c p) (doit_subs c f)
  | PoolSum b idx =>
      Add (map (fun combi => doit_subs (c ++ combi) b) (product idx))
  end.

Definition doit (e : expr) : expr := doit_subs [] e.

(** A tree is unfolded when no pool sum and no [Znm] is left in it. *)
Fixpoint unfolded (e : expr) : bool :=
  match e with
  | Int _ | Pi | ImagI | Sym _ | Indexed _ _ _ => true
  | Add es | Mul es => forallb unfolded es
  | Pow a _ | Abs a | Re a | Im a | Exp a => unfolded a
  | Ynm _ _ t p => unfolded t && unfolded p
  | Znm _ _ _ _ _ => false
  | PoolSum _ _ => false
  end.

(** ** Free symbols *)

Definition index_symbols (i : index) : list symb :=
  match i with IVar s => [SymS s] | IVal _ => [] end.

Definition is_pool_index (idx : list (string * list Z)) (s : symb) : bool :=
  match s with
  | SymS n => existsb (String.eqb n) (map fst idx)
  | _ => false
  end.

(** All occurrences, in traversal order.  An [Indexed] reports itself, its
    base and the symbols in its subscripts; a pool sum hides its own index
    symbols. *)
Fixpoint symbol_occurrences (e : expr) : list symb :=
  match e with
  | Int _ | Pi | ImagI => []
  | Sym s => [SymS s]
  | Indexed b i j => IdxS b i j :: BaseS b :: index_symbols i ++ index_symbols j
  | Add es | Mul es => flat_map symbol_occurrences es
  | Pow a _ | Abs a | Re a | Im a | Exp a => symbol_occurrences a
  | Ynm n m t p =>
      index_symbols n ++ index_symbols m
        ++ symbol_occurrences t ++ symbol_occurrences p
  | Znm n m t p f =>
      index_symbols n ++ index_symbols m
        ++ symbol_occurrences t ++ symbol_occurrences p ++ symbol_occurrences f
  | PoolSum b idx =>
      filter (fun s => negb (is_pool_index idx s)) (symbol_occurrences b)
  end.

(** [e.free_symbols], a set: the occurrences without repetition. *)
Definition free_symbols (e : expr) : list symb :=
  nodup symb_eq_dec (symbol_occurrences e).

(** [sorted(..., key=str)]: a stable sort on the printed form, strings
    compared character by character. *)
Fixpoint insert_by_str (x : symb) (l : list symb) : list symb :=
  match l with
  | [] => [x]
  | y :: rest =>
      if String.leb (str_symb x) (str_symb y) then x :: l
      else y :: insert_by_str x rest
  end.

Definition sorted_by_str (l : list symb) : list symb :=
  fold_right insert_by_str [] l.

(** ** The notebook's symbols and the intensity *)

Definition k := "k".
Definition l := "l".
Definition m := "m".
Definition phi := Sym "phi".
Definition theta := Sym "theta".
Definition Phi := Sym "Phi".
Definition kappa := Sym "kappa".
Definition Py := Sym "P_gamma".
Definition lp := "[l]^{(+)}".
Definition lm := "[l]^{(-)}".

Definition znm : expr := Znm (IVar l) (IVar m) theta phi Phi.

(** [arange(min_, max_ + 1)] turned into integers. *)
Definition create_range (min_ max_ : Z) : list Z :=
  map (fun i => min_ + Z.of_nat i) (seq 0 (Z.to_nat (max_ + 1 - min_))).

Definition one_minus_Py : expr := Add [Int 1; Mul [Int (-1); Py]].
Definition one_plus_Py : expr := Add [Int 1; Py].

(** One inner sum of the intensity: [PoolSum(A[m, k] * part(znm), (l, l_range),
    (m, m_range))] with [part] one of [sp.re], [sp.im]. *)
Definition wave_sum (A : string) (part : expr -> expr)
    (l_range m_range : list Z) : expr :=
  PoolSum (Mul [Indexed A (IVar m) (IVar k); part znm])
    [(l, l_range); (m, m_range)].

(** The Formula Assembler: the cell that defines [intensity_expr], with the
    maximal order, the flip indices and the azimuthal range as inputs.  The
    tree is built for all ranges; the cell itself raises [ValueError] in the
    constructor of [PoolSum] when a range is empty. *)
Definition intensity (max_l : Z) (k_values m_range : list Z) : expr :=
  let l_range := [max_l] in
  Mul [Int 2; kappa;
       PoolSum
         (Add [Mul [one_minus_Py; Pow (Abs (wave_sum lm Re l_range m_range)) 2];
               Mul [one_minus_Py; Pow (Abs (wave_sum lp Im l_range m_range)) 2];
               Mul [one_plus_Py; Pow (Abs (wave_sum lp Re l_range m_range)) 2];
               Mul [one_plus_Py; Pow (Abs (wave_sum lm Im l_range m_range)) 2]])
         [(k, k_values)]].

Definition max_l : Z := 2.
Definition k_values : list Z := [0].
Definition l_range : list Z := [max_l].
Definition m_range : list Z := create_range (- max_l) max_l.

Definition intensity_expr : expr := intensity max_l k_values m_range.

(** The inputs on which the cell and [doit] run through and on which the
    unfolded tree has the nodes that are written here: no range is empty or
    lists a value twice, and no azimuthal value exceeds the maximal order in
    absolute value. *)
Definition valid_ranges (max_l : Z) (k_values m_range : list Z) : Prop :=
  k_values <> [] /\ NoDup k_values /\
  m_range <> [] /\ NoDup m_range /\
  Forall (fun mv => Z.abs mv <= max_l) m_range.

(** ** Counting nodes of the unfolded tree *)

Definition sum_nat (l : list nat) : nat := fold_right Nat.add 0%nat l.

(** Number of squared magnitudes [Abs(...)**2] in a tree. *)
Fixpoint count_abs_sq (e : expr) : nat :=
  match e with
  | Int _ | Pi | ImagI | Sym _ | Indexed _ _ _ => 0%nat
  | Add es | Mul es => sum_nat (map count_abs_sq es)
  | Pow (Abs a) 2 => S (count_abs_sq a)
  | Pow a _ | Abs a | Re a | Im a | Exp a => count_abs_sq a
  | Ynm _ _ t p => (count_abs_sq t + count_abs_sq p)%nat
  | Znm _ _ t p f => (count_abs_sq t + count_abs_sq p + count_abs_sq f)%nat
  | PoolSum b _ => count_abs_sq b
  end.

(** The degrees of all spherical harmonics [Ynm] in a tree. *)
Fixpoint harmonic_degrees (e : expr) : list index :=
  match e with
  | Int _ | Pi | ImagI | Sym _ | Indexed _ _ _ => []
  | Add es | Mul es => flat_map harmonic_degrees es
  | Pow a _ | Abs a | Re a | Im a | Exp a => harmonic_degrees a
  | Ynm n _ t p => n :: harmonic_degrees t ++ harmonic_degrees p
  | Znm _ _ t p f =>
      harmonic_degrees t ++ harmonic_degrees p ++ harmonic_degrees f
  | PoolSum b _ => harmonic_degrees b
  end.

(** ** The argument list of the compiled function *)

Definition free_symbols_sorted (e : expr) : list symb :=
  sorted_by_str (free_symbols (doit e)).

Definition amp_symbols_of (e : expr) : list symb :=
  filter isinstance_Indexed (free_symbols_sorted e).

Definition theta_s := SymS "theta".
Definition phi_s := SymS "phi".
Definition Phi_s := SymS "Phi".
Definition Py_s := SymS "P_gamma".
Definition kappa_s := SymS "kappa".

Definition arguments_of (e : expr) : list symb :=
  theta_s :: phi_s :: Phi_s :: Py_s :: amp_symbols_of e.

Definition free_symbols_nb : list symb := free_symbols_sorted intensity_expr.
Definition amp_symbols : list symb := amp_symbols_of intensity_expr.
Definition arguments : list symb := arguments_of intensity_expr.

(** ** Complex numbers *)

Local Open Scope R_scope.

Definition C : Type := (R * R)%type.

Definition RtoC (x : R) : C := (x, 0).
Definition Ci : C := (0, 1).
Definition Cadd (a b : C) : C := (fst a + fst b, snd a + snd b).
Definition Cmul (a b : C) : C :=
  (fst a * fst b - snd a * snd b, fst a * snd b + snd a * fst b).
Definition Cexp (a : C) : C :=
  (exp (fst a) * cos (snd a), exp (fst a) * sin (snd a)).
Definition Cabs (a : C) : C := RtoC (sqrt (fst a * fst a + snd a * snd a)).
Definition Creal (a : C) : C := RtoC (fst a).
Definition Cimag (a : C) : C := RtoC (snd a).

Fixpoint Cpow (a : C) (n : nat) : C :=
  match n with
  | O => RtoC 1
  | S n' => Cmul a (Cpow a n')
  end.

Definition Csum (l : list C) : C := fold_right Cadd (RtoC 0) l.
Definition Cprod (l : list C) : C := fold_right Cmul (RtoC 1) l.

(** ** Results of fallible calls *)

Inductive error : Type :=
| NameError (s : symb)     (* a name in the generated code is not defined *)
| TypeError                (* wrong number of positional arguments *)
| SyntaxError              (* the generated code does not compile *)
| KeyError (key : string)  (* a dictionary has no such key *)
| NotNumeric.              (* a node without a numeric value *)

Inductive result (A : Type) : Type :=
| Ok (a : A)
| Err (e : error).
Arguments Ok {A} a.
Arguments Err {A} e.

Definition bind {A B : Type} (r : result A) (f : A -> result B) : result B :=
  match r with Ok a => f a | Err e => Err e end.

Notation "x <- r ;; k" := (bind r (fun x => k))
  (at level 61, r at next level, right associativity).

Fixpoint sequence {A : Type} (rs : list (result A)) : result (list A) :=
  match rs with
  | [] => Ok []
  | r :: rest => x <- r ;; xs <- sequence rest ;; Ok (x :: xs)
  end.

Definition env : Type := symb -> option C.

Definition empty_env : env := fun _ => None.

Definition fetch (rho : env) (s : symb) : result C :=
  match rho s with Some c => Ok c | None => Err (NameError s) end.

(** ** Bindings and [xreplace] *)

Definition binding : Type := list (symb * expr).

Fixpoint rule (b : binding) (s : symb) : option expr :=
  match b with
  | [] => None
  | (key, v) :: rest => if symb_eq_dec s key then Some v else rule rest s
  end.

(** [e.xreplace(b)]: a node that is a key of the binding is replaced by its
    value, other nodes are rebuilt from their replaced arguments.  The keys
    are symbols and indexed coefficients; an [Indexed] is matched as a whole. *)
Fixpoint xreplace (b : binding) (e : expr) : expr :=
  match e with
  | Int _ | Pi | ImagI => e
  | Sym s => match rule b (SymS s) with Some v => v | None => e end
  | Indexed a i j => match rule b (IdxS a i j) with Some v => v | None => e end
  | Add es => Add (map (xreplace b) es)
  | Mul es => Mul (map (xreplace b) es)
  | Pow a n => Pow (xreplace b a) n
  | Abs a => Abs (xreplace b a)
  | Re a => Re (xreplace b a)
  | Im a => Im (xreplace b a)
  | Exp a => Exp (xreplace b a)
  | Ynm n m t p => Ynm n m (xreplace b t) (xreplace b p)
  | Znm n m t p f => Znm n m (xreplace b t) (xreplace b p) (xreplace b f)
  | PoolSum a idx => PoolSum (xreplace b a) idx
  end.

(** A tree has a numeric value when it is unfolded and every harmonic has an
    integer degree and order. *)
Fixpoint numeric (e : expr) : bool :=
  match e with
  | Int _ | Pi | ImagI | Sym _ | Indexed _ _ _ => true
  | Add es | Mul es => forallb numeric es
  | Pow a _ | Abs a | Re a | Im a | Exp a => numeric a
  | Ynm (IVal _) (IVal _) t p => numeric t && numeric p
  | Ynm _ _ _ _ => false
  | Znm _ _ _ _ _ => false
  | PoolSum _ _ => false
  end.

(** The symbols whose value a numeric evaluation asks for. *)
Fixpoint value_symbols (e : expr) : list symb :=
  match e with
  | Int _ | Pi | ImagI => []
  | Sym s => [SymS s]
  | Indexed b i j => [IdxS b i j]
  | Add es | Mul es => flat_map value_symbols es
  | Pow a _ | Abs a | Re a | Im a | Exp a => value_symbols a
  | Ynm _ _ t p => value_symbols t ++ value_symbols p
  | Znm _ _ t p f => value_symbols t ++ value_symbols p ++ value_symbols f
  | PoolSum b _ => value_symbols b
  end.

(** ** Numeric evaluation and the compiled function *)

Record compiled : Type := { c_args : list symb; c_body : expr }.

Definition plain_names (args : list symb) : list string :=
  flat_map (fun s => match s with SymS n => [n] | _ => [] end) args.

Fixpoint distinct (names : list string) : bool :=
  match names with
  | [] => true
  | n :: rest => negb (existsb (String.eqb n) rest) && distinct rest
  end.

(** [sp.lambdify(args, e, "numpy", cse=True)].  The code generator prints the
    tree into the body of a Python function of the given arguments and
    compiles it; it does not compare the tree's symbols with the arguments.
    A repeated plain argument name makes the generated [def] invalid.

    The printed body itself is not modelled.  An indexed coefficient that is
    not an argument is printed under its own name, which for the notebook's
    bases is not Python, so that SymPy raises [SyntaxError] for such a body;
    here it is accepted.  The notebook passes every indexed coefficient of
    the tree as an argument ([amp_symbols]), and the statements about a
    compiled function below are made for such argument lists. *)
Definition lambdify (args : list symb) (e : expr) : result compiled :=
  if distinct (plain_names args) then Ok {| c_args := args; c_body := e |}
  else Err SyntaxError.

(** Positional binding of values to the arguments. *)
Fixpoint positional (args : list symb) (vals : list C) : env :=
  match args, vals with
  | a :: args', v :: vals' =>
      fun s => if symb_eq_dec s a then Some v else positional args' vals' s
  | _, _ => empty_env
  end.

Section Numeric.

(** The value [Y_n^m(theta, phi)] of the spherical harmonic of integer
    degree and order. *)
Variable sph_harm : Z -> Z -> C -> C -> C.

(** Value of a tree; symbols are looked up when they are reached.  A
    harmonic has the value that [sph_harm] gives it, whether it is still a
    [Ynm] node or was written out by [expand(func=True)]: the elementary
    functions that [expand] writes are not nodes of [expr].  Generated code
    that still calls [Ynm] raises [NameError] when it runs; the value that a
    tree with [Ynm] nodes has here is the value of its expanded form, which
    is the tree that the notebook compiles. *)
Fixpoint eval (rho : env) (e : expr) : result C :=
  match e with
  | Int z => Ok (RtoC (IZR z))
  | Pi => Ok (RtoC PI)
  | ImagI => Ok Ci
  | Sym s => fetch rho (SymS s)
  | Indexed b i j => fetch rho (IdxS b i j)
  | Add es => vs <- sequence (map (eval rho) es) ;; Ok (Csum vs)
  | Mul es => vs <- sequence (map (eval rho) es) ;; Ok (Cprod vs)
  | Pow a n => v <- eval rho a ;; Ok (Cpow v n)
  | Abs a => v <- eval rho a ;; Ok (Cabs v)
  | Re a => v <- eval rho a ;; Ok (Creal v)
  | Im a => v <- eval rho a ;; Ok (Cimag v)
  | Exp a => v <- eval rho a ;; Ok (Cexp v)
  | Ynm (IVal n) (IVal m) t p =>
      tv <- eval rho t ;; pv <- eval rho p ;; Ok (sph_harm n m tv pv)
  | Ynm _ _ _ _ => Err NotNumeric
  | Znm _ _ _ _ _ => Err NotNumeric
  | PoolSum _ _ => Err NotNumeric
  end.

(** Calling a compiled function with positional values.  The body is
    evaluated where every argument has its value.  A symbol of the body that
    is no argument has no number here ([NameError]); SymPy keeps such a plain
    symbol in the function's namespace, and the call returns an expression in
    it.  The notebook replaces kappa, its only such symbol, before it
    compiles. *)
Definition call (f : compiled) (vals : list C) : result C :=
  if Nat.eqb (List.length vals) (List.length (c_args f))
  then eval (positional (c_args f) vals) (c_body f)
  else Err TypeError.

(** [expand(func=True)] rewrites the unfolded tree (products are multiplied
    out, harmonics are written with elementary functions).  The rewriting
    itself belongs to SymPy and is a parameter here. *)
Variable expand : expr -> expr.

Definition plotted_expr_of (e : expr) : expr :=
  expand (xreplace [(kappa_s, Pi)] (doit e)).

Definition intensity_func_of (e : expr) : result compiled :=
  lambdify (arguments_of e) (plotted_expr_of e).

Definition plotted_expr : expr := plotted_expr_of intensity_expr.
Definition intensity_func : result compiled := intensity_func_of intensity_expr.

(** *** The intensity formula on values

    The formula of the notebook's first cell, written on numbers: [plus] and
    [minus] are the two coefficient families, [t], [p] and [f] the angles
    theta, phi and Phi. *)
Definition Znm_value (n m : Z) (t p f : C) : C :=
  Cprod [sph_harm n m t p; Cexp (Cprod [RtoC (IZR (-1)); Ci; f])].

Definition wave_value (A : Z -> C) (part : C -> C) (n : Z)
    (ms : list Z) (t p f : C) : C :=
  Csum (map (fun mv => Cprod [A mv; part (Znm_value n mv t p f)]) ms).

Definition abs_sq (z : C) : C := Cpow (Cabs z) 2.

Definition flip_value (plus minus : Z -> Z -> C) (P t p f : C)
    (n : Z) (ms : list Z) (kv : Z) : C :=
  Csum
    [Cprod [Csum [RtoC 1; Cprod [RtoC (IZR (-1)); P]];
            abs_sq (wave_value (fun mv => minus mv kv) Creal n ms t p f)];
     Cprod [Csum [RtoC 1; Cprod [RtoC (IZR (-1)); P]];
            abs_sq (wave_value (fun mv => plus mv kv) Cimag n ms t p f)];
     Cprod [Csum [RtoC 1; P];
            abs_sq (wave_value (fun mv => plus mv kv) Creal n ms t p f)];
     Cprod [Csum [RtoC 1; P];
            abs_sq (wave_value (fun mv => minus mv kv) Cimag n ms t p f)]].

Definition intensity_value (plus minus : Z -> Z -> C) (kap P t p f : C)
    (n : Z) (ks ms : list Z) : C :=
  Cprod [RtoC 2; kap; Csum (map (flip_value plus minus P t p f n ms) ks)].

End Numeric.

(** An environment that gives every plain symbol the value [sc] assigns to
    its name and the amplitude coefficients the values of two families. *)
Definition family_env (sc : string -> C) (plus minus : Z -> Z -> C) : env :=
  fun s =>
    match s with
    | SymS n => Some (sc n)
    | IdxS b (IVal mv) (IVal kv) =>
        if String.eqb b lp then Some (plus mv kv)
        else if String.eqb b lm then Some (minus mv kv)
        else None
    | _ => None
    end.

(** Closed forms of the harmonics of degree 2 at real angles; they instantiate
    [sph_harm] in the examples. *)
Definition sph_harm_2 (n m : Z) (t p : C) : C :=
  let th := fst t in
  let ph := fst p in
  if Z.eqb n 2 then
    match m with
    | 0%Z => RtoC (sqrt (5 / PI) / 4 * (3 * cos th * cos th - 1))
    | 1%Z => Cmul (RtoC (- (sqrt (15 / (2 * PI)) / 2) * sin th * cos th))
                  (Cexp (Cmul Ci (RtoC ph)))
    | (-1)%Z => Cmul (RtoC (sqrt (15 / (2 * PI)) / 2 * sin th * cos th))
                     (Cexp (Cmul Ci (RtoC (- ph))))
    | 2%Z => Cmul (RtoC (sqrt (15 / (2 * PI)) / 4 * sin th * sin th))
                  (Cexp (Cmul Ci (RtoC (2 * ph))))
    | (-2)%Z => Cmul (RtoC (sqrt (15 / (2 * PI)) / 4 * sin th * sin th))
                     (Cexp (Cmul Ci (RtoC (- (2 * ph)))))
    | _ => RtoC 0
    end
  else RtoC 0.

(** The trivial rewriting, which leaves the tree as it is. *)
Definition expand_nothing (e : expr) : expr := e.

(** ** The sliders *)

Record FloatSlider : Type := {
  description : string;
  slider_min : R;
  slider_max : R;
  slider_value : R;
  slider_step : R
}.

(** ipywidgets' defaults for what the notebook leaves out. *)
Definition default_value : R := 0.
Definition default_step : R := 1 / 10.

Definition startswith (s pre : string) : bool := String.prefix pre s.

Definition endswith (s suf : string) : bool :=
  let n := String.length s in
  let k := String.length suf in
  Nat.leb k n && String.eqb (String.substring (n - k) k s) suf.

(** [s[:-n]] *)
Definition drop_last (n : nat) (s : string) : string :=
  String.substring 0 (String.length s - n) s.

Fixpoint contains_char (c : ascii) (s : string) : bool :=
  match s with
  | EmptyString => false
  | String c' rest => Ascii.eqb c c' || contains_char c rest
  end.

(** [d[key] = v] on an insertion-ordered dictionary. *)
Fixpoint dict_set {A : Type} (key : string) (v : A) (d : list (string * A))
    : list (string * A) :=
  match d with
  | [] => [(key, v)]
  | (k', v') :: rest =>
      if String.eqb key k' then (key, v) :: rest
      else (k', v') :: dict_set key v rest
  end.

Fixpoint dict_get {A : Type} (key : string) (d : list (string * A))
    : option A :=
  match d with
  | [] => None
  | (k', v') :: rest => if String.eqb key k' then Some v' else dict_get key rest
  end.

Definition magnitude_slider (name : string) : FloatSlider :=
  {| description := "magnitude";
     slider_min := 0;
     slider_max := 2;
     slider_value := if contains_char "+"%char name then 1 else 0;
     slider_step := default_step |}.

Definition phase_slider : FloatSlider :=
  {| description := "phase";
     slider_min := 0;
     slider_max := 2;
     slider_value := default_value;
     slider_step := default_step |}.

Definition scalar_sliders : list (string * FloatSlider) :=
  [("Phi_val", {| description := "Φ"; slider_min := 0; slider_max := PI;
                  slider_value := 1; slider_step := PI / 20 |});
   ("Py_val", {| description := "Pγ"; slider_min := 0; slider_max := 1;
                 slider_value := 1; slider_step := default_step |})].

(** The loop [for s in free_symbols] that adds two sliders per amplitude. *)
Fixpoint add_amplitude_sliders (syms : list symb)
    (sliders : list (string * FloatSlider)) : list (string * FloatSlider) :=
  match syms with
  | [] => sliders
  | s :: rest =>
      if negb (isinstance_Indexed s) then add_amplitude_sliders rest sliders
      else if negb (startswith (str_symb s) "[l]")
      then add_amplitude_sliders rest sliders
      else
        let key := str_symb s in
        add_amplitude_sliders rest
          (dict_set (key ++ "_phi") phase_slider
             (dict_set (key ++ "_mag") (magnitude_slider key) sliders))
  end.

Definition sliders_of (syms : list symb) : list (string * FloatSlider) :=
  add_amplitude_sliders syms scalar_sliders.

Definition sliders : list (string * FloatSlider) := sliders_of free_symbols_nb.

(** What [interactive_output] passes to [plot]: the current value of every
    slider, by key. *)
Definition controls : Type := list (string * R).

Definition initial_controls (sl : list (string * FloatSlider)) : controls :=
  map (fun kv => (fst kv, slider_value (snd kv))) sl.

(** [magnitude * exp(phase * 1j)] *)
Definition polar (mag phase : R) : C :=
  Cmul (RtoC mag) (Cexp (Cmul (RtoC phase) Ci)).

(** The keyword arguments of [plot] other than [Phi_val] and [Py_val]. *)
Definition mag_phase_of (c : controls) : controls :=
  filter (fun kv => negb (String.eqb (fst kv) "Phi_val")
                    && negb (String.eqb (fst kv) "Py_val")) c.

(** The list comprehension that builds [amplitudes]. *)
Fixpoint amplitudes_from (items mag_phase : controls) : result (list C) :=
  match items with
  | [] => Ok []
  | (key, mag) :: rest =>
      if endswith key "mag" then
        match dict_get (drop_last 4 key ++ "_phi") mag_phase with
        | Some ph =>
            xs <- amplitudes_from rest mag_phase ;; Ok (polar mag ph :: xs)
        | None => Err (KeyError (drop_last 4 key ++ "_phi"))
        end
      else amplitudes_from rest mag_phase
  end.

Definition amplitudes (mag_phase : controls) : result (list C) :=
  amplitudes_from mag_phase mag_phase.

(** The positional values that [plot] hands to [intensity_func] at one point
    [(theta, phi)] of the grid. *)
Definition plot_arguments (th ph : R) (c : controls) : result (list C) :=
  match dict_get "Phi_val" c, dict_get "Py_val" c with
  | Some Phi_val, Some Py_val =>
      amps <- amplitudes (mag_phase_of c) ;;
      Ok (RtoC th :: RtoC ph :: RtoC Phi_val :: RtoC Py_val :: amps)
  | _, _ => Err TypeError
  end.

(** The value [Z] that [plot] draws at one point of the grid. *)
Definition plot_value (sph_harm : Z -> Z -> C -> C -> C) (f : result compiled)
    (th ph : R) (c : controls) : result C :=
  f' <- f ;; args <- plot_arguments th ph c ;; call sph_harm f' args.

(** The environment after [xreplace]: a bound symbol has the value of what it
    is bound to, every other symbol keeps its own. *)
Definition bound_env (sph_harm : Z -> Z -> C -> C -> C) (rho : env)
    (b : binding) : env :=
  fun s =>
    match rule b s with
    | Some v => match eval sph_harm rho v with Ok c => Some c | Err _ => None end
    | None => rho s
    end.

(** The value that a positional call gives to the coefficient [A[mv, kv]]. *)
Definition amplitude_at (args : list symb) (vals : list C) (A : string)
    (mv kv : Z) : C :=
  match positional args vals (IdxS A (IVal mv) (IVal kv)) with
  | Some c => c
  | None => RtoC 0
  end.

(** A non-negative real number, as a complex value. *)
Definition nonneg_real (z : C) : Prop := snd z = 0 /\ 0 <= fst z.

(** [rho] gives the symbols of the intensity these values. *)
Definition binds_intensity (rho : env) (plus minus : Z -> Z -> C)
    (P t p f : C) (ks ms : list Z) : Prop :=
  rho Py_s = Some P /\
  rho theta_s = Some t /\ rho phi_s = Some p /\ rho Phi_s = Some f /\
  forall mv kv, In mv ms -> In kv ks ->
    rho (IdxS lp (IVal mv) (IVal kv)) = Some (plus mv kv) /\
    rho (IdxS lm (IVal mv) (IVal kv)) = Some (minus mv kv).

(** The scenario of the suggested parameter values: every coefficient of the
    plus family is 0, every coefficient of the minus family is 1, the
    polarization is 1, and the point is theta = pi/2, phi = 0, Phi = 0.  The
    amplitude arguments come in the order of [amp_symbols], the plus family
    first. *)
Definition scenario_amplitudes : list C :=
  [RtoC 0; RtoC 0; RtoC 0; RtoC 0; RtoC 0;
   RtoC 1; RtoC 1; RtoC 1; RtoC 1; RtoC 1].

Definition scenario_arguments : list C :=
  RtoC (PI / 2) :: RtoC 0 :: RtoC 0 :: RtoC 1 :: scenario_amplitudes.

(** The values that [interactive_output] reads from the sliders when the two
    scalar sliders stand at [Phi_val] and [Py_val] and the sliders of the
    amplitude [s] stand at [mag s] and [phase s]. *)
Definition controls_of (syms : list symb) (Phi_val Py_val : R)
    (mag phase : symb -> R) : controls :=
  ("Phi_val"%string, Phi_val) :: ("Py_val"%string, Py_val)
  :: flat_map (fun s => [((str_symb s ++ "_mag")%string, mag s);
                         ((str_symb s ++ "_phi")%string, phase s)]) syms.

(** ** The suggested parameter values *)

Definition family_defaults (A : string) (v : expr) (ks ms : list Z) : binding :=
  flat_map (fun kv => map (fun mv => (IdxS A (IVal mv) (IVal kv), v)) ms) ks.

Definition lp_defaults : binding := family_defaults lp (Int 0) k_values m_range.
Definition lm_defaults : binding := family_defaults lm (Int 1) k_values m_range.

Definition parameter_defaults : binding :=
  (Py_s, Int 1) :: (kappa_s, Pi) :: lp_defaults ++ lm_defaults.

Definition substituted_expr : expr :=
  xreplace parameter_defaults (doit intensity_expr).

(** The order that [sorted] establishes. *)
Definition str_le (a b : symb) : Prop :=
  String.leb (str_symb a) (str_symb b) = true.

(** ** The unfolded intensity, written out

    What [doit] makes of [intensity]: every pool sum is a sum over its index
    values and every [Znm] is the product given by [Znm.evaluate]. *)

Definition Znm_unfolded (n mv : Z) : expr :=
  Mul [Ynm (IVal n) (IVal mv) theta phi; Exp (Mul [Int (-1); ImagI; Phi])].

Definition wave_term (A : string) (part : expr -> expr) (n kv mv : Z) : expr :=
  Mul [Indexed A (IVal mv) (IVal kv); part (Znm_unfolded n mv)].

Definition wave_unfolded (A : string) (part : expr -> expr)
    (n : Z) (ms : list Z) (kv : Z) : expr :=
  Add (map (wave_term A part n kv) ms).

Definition flip_unfolded (n : Z) (ms : list Z) (kv : Z) : expr :=
  Add [Mul [one_minus_Py; Pow (Abs (wave_unfolded lm Re n ms kv)) 2];
       Mul [one_minus_Py; Pow (Abs (wave_unfolded lp Im n ms kv)) 2];
       Mul [one_plus_Py; Pow (Abs (wave_unfolded lp Re n ms kv)) 2];
       Mul [one_plus_Py; Pow (Abs (wave_unfolded lm Im n ms kv)) 2]].

Definition intensity_unfolded (n : Z) (ks ms : list Z) : expr :=
  Mul [Int 2; kappa; Add (map (flip_unfolded n ms) ks)].

(** ** Further definitions of the notebook *)

(** The cell of the suggested parameter values for any ranges: the
    polarization is 1, kappa is pi, every plus coefficient is 0 and every
    minus coefficient is 1. *)
Definition parameter_defaults_of (ks ms : list Z) : binding :=
  (Py_s, Int 1) :: (kappa_s, Pi)
  :: family_defaults lp (Int 0) ks ms ++ family_defaults lm (Int 1) ks ms.

Definition substituted_expr_of (n : Z) (ks ms : list Z) : expr :=
  xreplace (parameter_defaults_of ks ms) (doit (intensity n ks ms)).

(** The amplitude coefficients that the ranges describe. *)
Definition coefficients (ks ms : list Z) : list symb :=
  flat_map (fun A =>
              flat_map (fun kv => map (fun mv => IdxS A (IVal mv) (IVal kv)) ms)
                       ks)
           [lp; lm].

(** A slider whose value lies between its bounds. *)
Definition in_range (s : FloatSlider) : Prop :=
  slider_min s <= slider_value s <= slider_max s.

(** The symbols for which the slider loop does not [continue]. *)
Definition is_amplitude (s : symb) : bool :=
  isinstance_Indexed s && startswith (str_symb s) "[l]".

Definition amplitude_sliders (s : symb) : list (string * FloatSlider) :=
  [((str_symb s ++ "_mag")%string, magnitude_slider (str_symb s));
   ((str_symb s ++ "_phi")%string, phase_slider)].

(** [s.lstrip(chars)], [s.rstrip(chars)] and [s.strip(chars)]: the characters
    of [chars] are removed from the ends of [s]. *)
Fixpoint lstrip (chars s : string) : string :=
  match s with
  | EmptyString => EmptyString
  | String c rest => if contains_char c chars then lstrip chars rest else s
  end.

Fixpoint rstrip (chars s : string) : string :=
  match s with
  | EmptyString => EmptyString
  | String c rest =>
      match rstrip chars rest with
      | EmptyString => if contains_char c chars then EmptyString
                       else String c EmptyString
      | kept => String c kept
      end
  end.

Definition strip (chars s : string) : string := lstrip chars (rstrip chars s).

(** The string handling of the loop that groups the sliders: the test on the
    key, [l_str = key.strip("_mag")], [sign = l_str[6]] and the text
    [l_str[9:]] that is read as the list of indices. *)
Definition is_magnitude_key (key : string) : bool :=
  startswith key "[l]^{(" && endswith key "_mag".

Definition l_str_of (key : string) : string := strip "_mag" key.

Definition sign_of (l_str : string) : option ascii := String.get 6 l_str.

Definition indices_text (l_str : string) : string :=
  String.substring 9 (String.length l_str - 9) l_str.

(** ** The grid *)

(** [np.linspace(start, stop, num)]: [num] evenly spaced numbers, both ends
    included. *)
Definition linspace (start stop : R) (num : nat) : list R :=
  map (fun i => start + INR i * ((stop - start) / INR (num - 1))) (seq 0 num).

(** [np.meshgrid(xs, ys)]: two arrays with one row per element of [ys] and
    one column per element of [xs]. *)
Definition meshgrid (xs ys : list R) : list (list R) * list (list R) :=
  (map (fun _ => xs) ys, map (fun y => map (fun _ => y) xs) ys).

Definition cos_theta_array : list (list R) :=
  fst (meshgrid (linspace (-1) 1 200) (linspace 0 (2 * PI) 400)).

Definition phi_array : list (list R) :=
  snd (meshgrid (linspace (-1) 1 200) (linspace 0 (2 * PI) 400)).

Definition theta_array : list (list R) := map (map acos) cos_theta_array.

(** Element by element over two arrays of the same shape. *)
Definition zip_with {A B D : Type} (g : A -> B -> D) (xs : list A) (ys : list B)
    : list D :=
  map (fun ab => g (fst ab) (snd ab)) (combine xs ys).

(** The array [Z] of [plot]: the compiled function over the whole grid. *)
Definition plot_Z (sph_harm : Z -> Z -> C -> C -> C) (f : result compiled)
    (c : controls) : result (list (list C)) :=
  sequence
    (zip_with (fun trow prow =>
                 sequence (zip_with (fun th ph => plot_value sph_harm f th ph c)
                                    trow prow))
              theta_array phi_array).

(** ** The mesh that [plot] keeps *)

(** The state of the global [MESH]: the array that is shown and the limits of
    its colour scale. *)
Record QuadMesh : Type := {
  mesh_array : list (list R);
  vmin : R;
  vmax : R
}.

(** [np.nanmax] and the smallest element; an array without elements has
    neither. *)
Definition array_max (Zs : list (list R)) : option R :=
  match List.concat Zs with
  | [] => None
  | x :: xs => Some (fold_left Rmax xs x)
  end.

Definition array_min (Zs : list (list R)) : option R :=
  match List.concat Zs with
  | [] => None
  | x :: xs => Some (fold_left Rmin xs x)
  end.

(** Matplotlib's [transforms.nonsingular(vmin, vmax, expander)] with its
    defaults [tiny=1e-15] and [increasing=True]: a range that is too narrow
    for its endpoints is widened.  [float_tiny] is [np.finfo(float).tiny]. *)
Definition tiny : R := / 10 ^ 15.
Definition float_tiny : R := / 2 ^ 1022.

Definition nonsingular (vmin vmax expander : R) : R * R :=
  let swapped := if Rlt_dec vmax vmin then true else false in
  let lo := if swapped then vmax else vmin in
  let hi := if swapped then vmin else vmax in
  let maxabsvalue := Rmax (Rabs lo) (Rabs hi) in
  if Rlt_dec maxabsvalue (10 ^ 6 / tiny * float_tiny) then (- expander, expander)
  else if Rle_dec (hi - lo) (maxabsvalue * tiny) then
    if Req_dec_T hi 0 then
      if Req_dec_T lo 0 then (- expander, expander)
      else (lo - expander * Rabs lo, hi + expander * Rabs hi)
    else (lo - expander * Rabs lo, hi + expander * Rabs hi)
  else (lo, hi).

(** The limits of the colour scale after the first call: [pcolormesh] scales
    the colours to the smallest and the largest element of the array, and
    [fig.colorbar] passes these limits through [nonsingular] with an expander
    of 0.1. *)
Definition first_clim (Z_min Z_max : R) : R * R :=
  nonsingular Z_min Z_max (1 / 10).

(** The second half of [plot]: the first call creates the mesh with
    [pcolormesh] and its colour bar with [fig.colorbar]; later calls only
    replace the array with [set_array].  When the maximum exceeds 0.1 the
    colour scale is set to run from 0 to the maximum, a range that the colour
    bar leaves as it is. *)
Definition draw (MESH : option QuadMesh) (Zs : list (list R)) : option QuadMesh :=
  match array_min Zs, array_max Zs with
  | Some Z_min, Some Z_max =>
      let mesh :=
        match MESH with
        | None => {| mesh_array := Zs;
                     vmin := fst (first_clim Z_min Z_max);
                     vmax := snd (first_clim Z_min Z_max) |}
        | Some old => {| mesh_array := Zs; vmin := vmin old; vmax := vmax old |}
        end in
      Some (if Rgt_dec Z_max (1 / 10)
            then {| mesh_array := mesh_array mesh; vmin := 0; vmax := Z_max |}
            else mesh)
  | _, _ => None
  end.

(** One call of [plot] after another, from the state [MESH]. *)
Fixpoint draw_all (MESH : option QuadMesh) (frames : list (list (list R)))
    : option QuadMesh :=
  match frames with
  | [] => MESH
  | Zs :: rest =>
      match draw MESH Zs with
      | Some mesh => draw_all (Some mesh) rest
      | None => None
      end
  end.

(** A frame whose maximum exceeds the threshold of [plot]. *)
Definition exceeds_threshold (Zs : list (list R)) : bool :=
  match array_max Zs with
  | Some Z_max => if Rgt_dec Z_max (1 / 10) then true else false
  | None => false
  end.

(** * Properties *)

(** ** Unfolding *)

Lemma subs_index_nil i : subs_index [] i = i.
Proof. destruct i; reflexivity. Qed.

Lemma lookup_app s c t :
  lookup s (c ++ t) = match lookup s c with Some v => Some v | None => lookup s t end.
Proof.
  induction c as [|[key v] c IH]; simpl; [reflexivity|].
  destruct (string_dec s key); [reflexivity | exact IH].
Qed.

Lemma subs_index_app c t i :
  subs_index t (subs_index c i) = subs_index (c ++ t) i.
Proof.
  destruct i as [s|z]; simpl; [|reflexivity].
  rewrite lookup_app. destruct (lookup s c); reflexivity.
Qed.

(** Unfolding after a substitution is unfolding with the substitution
    pending. *)
Lemma doit_subs_subs c e : forall t, doit_subs t (subs c e) = doit_subs (c ++ t) e.
Proof.
  induction e using expr_rect_list; intro t; simpl;
    rewrite ?subs_index_app, ?IHe, ?IHe1, ?IHe2, ?IHe3; try reflexivity.
  - rewrite lookup_app. destruct (lookup s c); reflexivity.
  - f_equal. rewrite map_map. apply map_ext_Forall.
    eapply Forall_impl; [|exact H]. intros a Ha; apply Ha.
  - f_equal. rewrite map_map. apply map_ext_Forall.
    eapply Forall_impl; [|exact H]. intros a Ha; apply Ha.
  - f_equal. apply map_ext. intro combi. now rewrite IHe, app_assoc.
Qed.

(** [PoolSum.evaluate] followed by the deep [doit]: the sum, over all index
    combinations, of the unfolded substituted summand. *)
Lemma doit_PoolSum b idx :
  doit (PoolSum b idx) = Add (map (fun combi => doit (subs combi b)) (product idx)).
Proof.
  unfold doit; simpl. f_equal. apply map_ext. intro combi.
  now rewrite doit_subs_subs, app_nil_r.
Qed.

Lemma doit_Znm n m t p f :
  doit (Znm n m t p f) = Znm_evaluate n m (doit t) (doit p) (doit f).
Proof. unfold doit; simpl. now rewrite !subs_index_nil. Qed.

(** Unfolding an unfolded tree changes nothing. *)
Lemma doit_doit_subs e : forall c, doit (doit_subs c e) = doit_subs c e.
Proof.
  unfold doit.
  induction e using expr_rect_list; intro c; simpl;
    rewrite ?subs_index_nil, ?IHe, ?IHe1, ?IHe2, ?IHe3; try reflexivity.
  - destruct (lookup s c); reflexivity.
  - f_equal. rewrite map_map. apply map_ext_Forall.
    eapply Forall_impl; [|exact H]. intros a Ha; apply Ha.
  - f_equal. rewrite map_map. apply map_ext_Forall.
    eapply Forall_impl; [|exact H]. intros a Ha; apply Ha.
  - f_equal. rewrite map_map. apply map_ext. intro combi. apply IHe.
Qed.

Lemma unfolded_doit_subs e : forall c, unfolded (doit_subs c e) = true.
Proof.
  induction e using expr_rect_list; intro c; simpl;
    rewrite ?IHe, ?IHe1, ?IHe2, ?IHe3; try reflexivity.
  - destruct (lookup s c); reflexivity.
  - rewrite forallb_forall. intros x Hx. apply in_map_iff in Hx.
    destruct Hx as [a [<- Ha]]. rewrite Forall_forall in H. now apply H.
  - rewrite forallb_forall. intros x Hx. apply in_map_iff in Hx.
    destruct Hx as [a [<- Ha]]. rewrite Forall_forall in H. now apply H.
  - rewrite forallb_forall. intros x Hx. apply in_map_iff in Hx.
    destruct Hx as [a [<- Ha]]. apply IHe.
Qed.

Lemma product_single s vs : product [(s, vs)] = map (fun v => [(s, v)]) vs.
Proof.
  simpl. induction vs as [|v vs IH]; simpl; [reflexivity | now rewrite IH].
Qed.

Lemma product_pair s1 v1 s2 vs :
  product [(s1, [v1]); (s2, vs)] = map (fun v => [(s1, v1); (s2, v)]) vs.
Proof.
  change (product [(s1, [v1]); (s2, vs)])
    with (map (cons (s1, v1)) (product [(s2, vs)]) ++ []).
  now rewrite app_nil_r, product_single, map_map.
Qed.

Lemma doit_subs_wave_sum A part n ms kv :
  (forall c e, doit_subs c (part e) = part (doit_subs c e)) ->
  doit_subs [(k, kv)] (wave_sum A part [n] ms) = wave_unfolded A part n ms kv.
Proof.
  intro Hpart. unfold wave_sum, wave_unfolded.
  cbn [doit_subs]. rewrite product_pair, map_map. f_equal.
  apply map_ext. intro mv. cbn [map]. rewrite Hpart. reflexivity.
Qed.

(** The unfolded intensity is the written-out tree. *)
Lemma doit_intensity n ks ms :
  doit (intensity n ks ms) = intensity_unfolded n ks ms.
Proof.
  unfold doit, intensity, intensity_unfolded.
  cbn [doit_subs map]. rewrite product_single, map_map.
  do 5 f_equal. apply map_ext. intro kv.
  cbn [app]. rewrite !doit_subs_wave_sum by reflexivity. reflexivity.
Qed.

(** ** Counting the terms of the unfolded intensity *)

Lemma sum_nat_const {A : Type} (f : A -> nat) (c : nat) (xs : list A) :
  (forall x, f x = c) -> sum_nat (map f xs) = (List.length xs * c)%nat.
Proof.
  intro Hf. induction xs as [|x xs IH]; simpl; [reflexivity|].
  now rewrite Hf, IH.
Qed.

Lemma count_abs_sq_wave A part n ms kv :
  (forall e, count_abs_sq (part e) = count_abs_sq e) ->
  count_abs_sq (wave_unfolded A part n ms kv) = 0%nat.
Proof.
  intro Hpart. unfold wave_unfolded. cbn [count_abs_sq].
  rewrite map_map, (sum_nat_const _ 0%nat); [lia|].
  intro mv. unfold wave_term. cbn [count_abs_sq map sum_nat fold_right].
  now rewrite Hpart.
Qed.

Lemma count_abs_sq_flip n ms kv : count_abs_sq (flip_unfolded n ms kv) = 4%nat.
Proof.
  unfold flip_unfolded.
  cbn [count_abs_sq map sum_nat fold_right one_minus_Py one_plus_Py Py].
  now rewrite !count_abs_sq_wave by reflexivity.
Qed.

Lemma count_abs_sq_intensity n ks ms :
  count_abs_sq (doit (intensity n ks ms)) = (List.length ks * 4)%nat.
Proof.
  rewrite doit_intensity. unfold intensity_unfolded.
  cbn [count_abs_sq map sum_nat fold_right kappa].
  rewrite map_map, (sum_nat_const _ 4%nat); [lia|].
  apply count_abs_sq_flip.
Qed.

Lemma notebook_ranges_valid : valid_ranges max_l k_values m_range.
Proof.
  unfold valid_ranges. split; [discriminate|].
  split; [repeat constructor; simpl; tauto|].
  split; [discriminate|].
  split.
  - change m_range with (nodup Z.eq_dec m_range). apply NoDup_nodup.
  - repeat constructor; vm_compute; discriminate.
Qed.

(** C1 as the code has it: for every valid input, unfolding the intensity
    leaves four squared magnitudes per flip index, whatever the size of the
    azimuthal range; the sum over the azimuthal values stands inside each
    magnitude. *)
Theorem squared_magnitudes_per_flip_index (n : Z) (ks ms : list Z) :
  valid_ranges n ks ms ->
  count_abs_sq (doit (intensity n ks ms)) = (List.length ks * 4)%nat.
Proof. intros _. apply count_abs_sq_intensity. Qed.

Lemma squared_magnitudes_per_flip_index_witness :
  valid_ranges max_l k_values m_range /\
  count_abs_sq (doit intensity_expr) = 4%nat.
Proof.
  split; [exact notebook_ranges_valid|].
  exact (squared_magnitudes_per_flip_index max_l k_values m_range
           notebook_ranges_valid).
Defined.

(** C1 as stated fails on the notebook's own ranges: one flip index and five
    azimuthal values give 4 squared magnitudes, not 20. *)
Lemma squared_magnitudes_not_per_azimuthal_value :
  count_abs_sq (doit (intensity 2 [0%Z] [(-2)%Z; (-1)%Z; 0%Z; 1%Z; 2%Z]))
  <> (List.length [0%Z] * List.length [(-2)%Z; (-1)%Z; 0%Z; 1%Z; 2%Z] * 4)%nat.
Proof. vm_compute. discriminate. Qed.

(** ** The phase-rotated harmonic *)

(** C7: [doit] turns [Znm(n, m, theta, phi, Phi)] into
    [Ynm(n, m, theta, phi) * exp(-I * Phi)] (with unfolded arguments, which
    for symbols are the arguments themselves), and a second [doit] changes
    nothing. *)
Theorem Znm_doit_idempotent (n m : index) (t p f : expr) :
  doit (Znm n m t p f)
    = Mul [Ynm n m (doit t) (doit p); Exp (Mul [Int (-1); ImagI; doit f])] /\
  (forall ts ps fs,
      doit (Znm n m (Sym ts) (Sym ps) (Sym fs))
      = Mul [Ynm n m (Sym ts) (Sym ps);
             Exp (Mul [Int (-1); ImagI; Sym fs])]) /\
  doit (doit (Znm n m t p f)) = doit (Znm n m t p f).
Proof.
  split; [apply doit_Znm|]. split.
  - intros ts ps fs. now rewrite doit_Znm.
  - apply doit_doit_subs.
Qed.

(** ** The degree of the harmonics *)

Lemma harmonic_degrees_wave A part n ms kv :
  (forall e, harmonic_degrees (part e) = harmonic_degrees e) ->
  harmonic_degrees (wave_unfolded A part n ms kv) = map (fun _ => IVal n) ms.
Proof.
  intro Hpart. unfold wave_unfolded. cbn [harmonic_degrees].
  induction ms as [|mv ms IH]; [reflexivity|].
  cbn [map flat_map]. rewrite IH. unfold wave_term.
  cbn [harmonic_degrees flat_map]. rewrite Hpart. reflexivity.
Qed.

Lemma harmonic_degrees_flip n ms kv :
  harmonic_degrees (flip_unfolded n ms kv)
  = map (fun _ => IVal n) (ms ++ ms ++ ms ++ ms).
Proof.
  unfold flip_unfolded.
  cbn [harmonic_degrees flat_map one_minus_Py one_plus_Py Py app].
  rewrite !harmonic_degrees_wave by reflexivity.
  now rewrite !app_nil_r, !map_app.
Qed.

(** C10: the pool sum over the degree runs over [[max_l]] alone, so every
    spherical harmonic of the unfolded intensity has degree [max_l]; there
    are [|flip_indices| * |m_range| * 4] of them. *)
Theorem harmonics_have_maximal_degree (n : Z) (ks ms : list Z) :
  Forall (fun d => d = IVal n) (harmonic_degrees (doit (intensity n ks ms))) /\
  List.length (harmonic_degrees (doit (intensity n ks ms)))
    = (List.length ks * List.length ms * 4)%nat.
Proof.
  rewrite doit_intensity. unfold intensity_unfolded.
  cbn [harmonic_degrees flat_map kappa app]. rewrite app_nil_r.
  induction ks as [|kv ks [IHall IHlen]]; [split; [constructor | reflexivity]|].
  cbn [map flat_map]. rewrite harmonic_degrees_flip. split.
  - apply Forall_app. split; [|exact IHall].
    apply Forall_forall. intros d Hd. apply in_map_iff in Hd.
    now destruct Hd as [_ [<- _]].
  - rewrite length_app, IHlen, length_map, !length_app. cbn [List.length]. lia.
Qed.

(** ** The order of the arguments *)

Lemma ascii_compare_refl c : Ascii.compare c c = Eq.
Proof. unfold Ascii.compare. apply N.compare_refl. Qed.

Lemma ascii_compare_lt_trans a b c :
  Ascii.compare a b = Lt -> Ascii.compare b c = Lt -> Ascii.compare a c = Lt.
Proof.
  unfold Ascii.compare. rewrite !N.compare_lt_iff. apply N.lt_trans.
Qed.

Lemma string_compare_lt_trans a : forall b c,
  String.compare a b = Lt -> String.compare b c = Lt -> String.compare a c = Lt.
Proof.
  induction a as [|x a IH]; intros [|y b] [|z c]; simpl; try discriminate; auto.
  destruct (Ascii.compare x y) eqn:Exy; try discriminate;
    destruct (Ascii.compare y z) eqn:Eyz; try discriminate; intros Hab Hbc.
  - apply Ascii.compare_eq_iff in Exy, Eyz. subst.
    rewrite ascii_compare_refl. eauto.
  - apply Ascii.compare_eq_iff in Exy. subst. now rewrite Eyz.
  - apply Ascii.compare_eq_iff in Eyz. subst. now rewrite Exy.
  - now rewrite (ascii_compare_lt_trans _ _ _ Exy Eyz).
Qed.

Lemma string_compare_refl s : String.compare s s = Eq.
Proof.
  induction s as [|c s IH]; simpl; [reflexivity|].
  now rewrite ascii_compare_refl.
Qed.

Lemma string_leb_trans a b c :
  String.leb a b = true -> String.leb b c = true -> String.leb a c = true.
Proof.
  unfold String.leb.
  destruct (String.compare a b) eqn:Eab; try discriminate;
    destruct (String.compare b c) eqn:Ebc; try discriminate; intros _ _.
  - apply String.compare_eq_iff in Eab, Ebc. subst.
    now rewrite string_compare_refl.
  - apply String.compare_eq_iff in Eab. subst. now rewrite Ebc.
  - apply String.compare_eq_iff in Ebc. subst. now rewrite Eab.
  - now rewrite (string_compare_lt_trans _ _ _ Eab Ebc).
Qed.

Lemma In_insert_by_str x s l : In s (insert_by_str x l) <-> s = x \/ In s l.
Proof.
  induction l as [|y l IH]; simpl; [intuition|].
  destruct (String.leb (str_symb x) (str_symb y)); simpl; rewrite ?IH; intuition.
Qed.

Lemma In_sorted_by_str s l : In s (sorted_by_str l) <-> In s l.
Proof.
  induction l as [|x l IH]; simpl; [reflexivity|].
  rewrite In_insert_by_str, IH. intuition.
Qed.

Lemma insert_by_str_sorted x l :
  StronglySorted str_le l -> StronglySorted str_le (insert_by_str x l).
Proof.
  induction 1 as [|y l Hl IH Hy]; simpl.
  - constructor; constructor.
  - destruct (String.leb (str_symb x) (str_symb y)) eqn:E.
    + constructor; [now constructor|].
      constructor; [exact E|].
      eapply Forall_impl; [|exact Hy]. intros z Hz.
      unfold str_le in *. eapply string_leb_trans; eauto.
    + constructor; [exact IH|].
      apply Forall_forall. intros z Hz. apply In_insert_by_str in Hz.
      destruct Hz as [-> | Hz].
      * unfold str_le. destruct (String.leb_total (str_symb y) (str_symb x)); congruence.
      * rewrite Forall_forall in Hy. now apply Hy.
Qed.

Lemma sorted_by_str_sorted l : StronglySorted str_le (sorted_by_str l).
Proof.
  induction l as [|x l IH]; simpl; [constructor | now apply insert_by_str_sorted].
Qed.

Lemma filter_sorted (p : symb -> bool) l :
  StronglySorted str_le l -> StronglySorted str_le (filter p l).
Proof.
  induction 1 as [|y l Hl IH Hy]; simpl; [constructor|].
  destruct (p y); [|exact IH]. constructor; [exact IH|].
  apply Forall_forall. intros z Hz. apply filter_In in Hz.
  rewrite Forall_forall in Hy. now apply Hy.
Qed.

Lemma plain_names_Indexed l : plain_names (filter isinstance_Indexed l) = [].
Proof.
  induction l as [|[| |] l IH]; simpl; auto.
Qed.

Lemma lambdify_arguments (e body : expr) :
  lambdify (arguments_of e) body
  = Ok {| c_args := arguments_of e; c_body := body |}.
Proof.
  unfold lambdify, arguments_of, amp_symbols_of.
  cbn [plain_names flat_map theta_s phi_s Phi_s Py_s app].
  fold (plain_names (filter isinstance_Indexed (free_symbols_sorted e))).
  now rewrite plain_names_Indexed.
Qed.

(** C5 as the code has it: the argument list is fixed when the function is
    compiled; it starts with theta, phi, Phi, P_gamma, and only the amplitude
    coefficients after them follow the order of the sorted free symbols. *)
Theorem arguments_are_angles_then_sorted_amplitudes
    (expand : expr -> expr) (e : expr) :
  (exists f, intensity_func_of expand e = Ok f /\
             c_args f = theta_s :: phi_s :: Phi_s :: Py_s :: amp_symbols_of e) /\
  amp_symbols_of e = filter isinstance_Indexed (free_symbols_sorted e) /\
  StronglySorted str_le (free_symbols_sorted e) /\
  StronglySorted str_le (amp_symbols_of e) /\
  (forall s, In s (amp_symbols_of e) <->
             In s (free_symbols (doit e)) /\ isinstance_Indexed s = true).
Proof.
  split.
  { unfold intensity_func_of. rewrite lambdify_arguments. eexists. split; reflexivity. }
  split; [reflexivity|]. split; [apply sorted_by_str_sorted|].
  split; [apply filter_sorted, sorted_by_str_sorted|].
  intro s. unfold amp_symbols_of, free_symbols_sorted.
  now rewrite filter_In, In_sorted_by_str.
Qed.

(** C5 as stated fails in the notebook: the first argument is theta, the first
    of the sorted free symbols is P_gamma. *)
Lemma arguments_not_in_sorted_order :
  ~ (forall i, nth_error arguments i = nth_error free_symbols_nb i).
Proof. intro H. specialize (H 0%nat). vm_compute in H. discriminate. Qed.

(** ** Evaluation *)

Lemma sequence_map_Ok {A B : Type} (f : A -> result B) (g : A -> B) (xs : list A) :
  (forall x, In x xs -> f x = Ok (g x)) ->
  sequence (map f xs) = Ok (map g xs).
Proof.
  induction xs as [|x xs IH]; intro H; simpl; [reflexivity|].
  rewrite (H x) by now left. simpl.
  rewrite IH by (intros y Hy; apply H; now right). reflexivity.
Qed.

Lemma sequence_map_total {A B : Type} (f : A -> result B) (xs : list A) :
  (forall x, In x xs -> exists v, f x = Ok v) ->
  exists vs, sequence (map f xs) = Ok vs.
Proof.
  induction xs as [|x xs IH]; intro H; simpl; [now eexists|].
  destruct (H x) as [v Hv]; [now left|]. rewrite Hv. simpl.
  destruct IH as [vs Hvs]; [intros y Hy; apply H; now right|].
  rewrite Hvs. simpl. now eexists.
Qed.

Lemma positional_bound (args : list symb) : forall (vals : list C) s,
  List.length vals = List.length args -> In s args ->
  exists c, positional args vals s = Some c.
Proof.
  induction args as [|a args IH]; intros [|v vals] s Hlen Hin;
    simpl in *; try discriminate; try contradiction.
  destruct (symb_eq_dec s a) as [|Hne]; [now eexists|].
  apply IH; [lia|]. destruct Hin; congruence.
Qed.

Ltac destruct_indices :=
  repeat match goal with
         | |- context [match ?i with IVar _ => _ | IVal _ => _ end] =>
             is_var i; destruct i
         | H : context [match ?i with IVar _ => _ | IVal _ => _ end] |- _ =>
             is_var i; destruct i
         end.

Section NumericFacts.

Variable sph_harm : Z -> Z -> C -> C -> C.


(** Evaluation looks only at the symbols that occur in the tree. *)
Lemma eval_ext (rho1 rho2 : env) (e : expr) :
  (forall s, In s (value_symbols e) -> rho1 s = rho2 s) ->
  eval sph_harm rho1 e = eval sph_harm rho2 e.
Proof.
  induction e using expr_rect_list; intro Hs; simpl in *;
    try reflexivity;
    try (rewrite IHe by exact Hs; reflexivity).
  - unfold fetch. rewrite Hs by now left. reflexivity.
  - unfold fetch. rewrite Hs by now left. reflexivity.
  - replace (map (eval sph_harm rho1) es) with (map (eval sph_harm rho2) es); [reflexivity|].
    apply map_ext_Forall. rewrite Forall_forall in *. intros a Ha.
    symmetry. apply H; [exact Ha|]. intros s Hin. apply Hs.
    apply in_flat_map. eauto.
  - replace (map (eval sph_harm rho1) es) with (map (eval sph_harm rho2) es); [reflexivity|].
    apply map_ext_Forall. rewrite Forall_forall in *. intros a Ha.
    symmetry. apply H; [exact Ha|]. intros s Hin. apply Hs.
    apply in_flat_map. eauto.
  - destruct_indices; try reflexivity.
    rewrite IHe1 by (intros s Hin; apply Hs, in_or_app; auto).
    rewrite IHe2 by (intros s Hin; apply Hs, in_or_app; auto).
    reflexivity.
Qed.

(** A numeric tree whose symbols are all bound has a value. *)
Lemma eval_total (rho : env) (e : expr) :
  numeric e = true ->
  (forall s, In s (value_symbols e) -> exists c, rho s = Some c) ->
  exists v, eval sph_harm rho e = Ok v.
Proof.
  induction e using expr_rect_list; intros Hnum Hs; simpl in *;
    try discriminate;
    try (now eexists);
    try (destruct (IHe Hnum Hs) as [v ->]; simpl; now eexists).
  - unfold fetch. destruct (Hs (SymS s)) as [c ->]; [now left|]. now eexists.
  - unfold fetch. destruct (Hs (IdxS b i j)) as [c ->]; [now left|]. now eexists.
  - destruct (sequence_map_total (eval sph_harm rho) es) as [vs ->]; [|simpl; now eexists].
    rewrite Forall_forall in H. rewrite forallb_forall in Hnum.
    intros a Ha. apply H; auto. intros s Hin. apply Hs.
    apply in_flat_map. eauto.
  - destruct (sequence_map_total (eval sph_harm rho) es) as [vs ->]; [|simpl; now eexists].
    rewrite Forall_forall in H. rewrite forallb_forall in Hnum.
    intros a Ha. apply H; auto. intros s Hin. apply Hs.
    apply in_flat_map. eauto.
  - destruct_indices; try discriminate.
    apply andb_prop in Hnum. destruct Hnum as [H1 H2].
    destruct IHe1 as [tv ->]; [exact H1 | intros; apply Hs, in_or_app; auto|].
    destruct IHe2 as [pv ->]; [exact H2 | intros; apply Hs, in_or_app; auto|].
    simpl. now eexists.
Qed.

(** The value of a tree after [xreplace] is the value of the tree itself
    where the bound symbols have the values of what they are bound to. *)
Lemma eval_xreplace (rho : env) (b : binding) (e : expr) :
  (forall s v, rule b s = Some v -> exists c, eval sph_harm rho v = Ok c) ->
  eval sph_harm rho (xreplace b e) = eval sph_harm (bound_env sph_harm rho b) e.
Proof.
  intro Hb.
  induction e using expr_rect_list; simpl;
    try reflexivity;
    try (rewrite IHe; reflexivity).
  - unfold fetch, bound_env.
    destruct (rule b (SymS s)) as [v|] eqn:E; [|reflexivity].
    destruct (Hb _ _ E) as [c Hc]. now rewrite Hc.
  - unfold fetch, bound_env.
    destruct (rule b (IdxS b0 i j)) as [v|] eqn:E; [|reflexivity].
    destruct (Hb _ _ E) as [c Hc]. now rewrite Hc.
  - rewrite map_map.
    replace (map (fun x => eval sph_harm rho (xreplace b x)) es)
      with (map (eval sph_harm (bound_env sph_harm rho b)) es); [reflexivity|].
    symmetry. apply map_ext_Forall. exact H.
  - rewrite map_map.
    replace (map (fun x => eval sph_harm rho (xreplace b x)) es)
      with (map (eval sph_harm (bound_env sph_harm rho b)) es); [reflexivity|].
    symmetry. apply map_ext_Forall. exact H.
  - destruct_indices; try reflexivity. now rewrite IHe1, IHe2.
Qed.

(** *** The value of the unfolded intensity *)

Lemma eval_Znm_unfolded rho n mv t p f :
  rho theta_s = Some t -> rho phi_s = Some p -> rho Phi_s = Some f ->
  eval sph_harm rho (Znm_unfolded n mv) = Ok (Znm_value sph_harm n mv t p f).
Proof.
  intros Ht Hp Hf. unfold Znm_unfolded, theta, phi, Phi.
  cbn [eval map sequence]. unfold fetch.
  fold theta_s phi_s Phi_s. rewrite Ht, Hp, Hf. reflexivity.
Qed.

Lemma eval_wave_unfolded rho A part partv a n ms kv t p f :
  (forall e v, eval sph_harm rho e = Ok v -> eval sph_harm rho (part e) = Ok (partv v)) ->
  rho theta_s = Some t -> rho phi_s = Some p -> rho Phi_s = Some f ->
  (forall mv, In mv ms -> rho (IdxS A (IVal mv) (IVal kv)) = Some (a mv)) ->
  eval sph_harm rho (wave_unfolded A part n ms kv)
  = Ok (wave_value sph_harm a partv n ms t p f).
Proof.
  intros Hpart Ht Hp Hf Ha. unfold wave_unfolded, wave_value.
  cbn [eval]. rewrite map_map.
  rewrite (sequence_map_Ok _
             (fun mv => Cprod [a mv; partv (Znm_value sph_harm n mv t p f)]));
    [reflexivity|].
  intros mv Hmv. unfold wave_term. cbn [eval map sequence].
  unfold fetch. rewrite (Ha mv Hmv).
  rewrite (Hpart _ _ (eval_Znm_unfolded rho n mv t p f Ht Hp Hf)).
  reflexivity.
Qed.

Lemma eval_Re rho e v : eval sph_harm rho e = Ok v -> eval sph_harm rho (Re e) = Ok (Creal v).
Proof. intro H. simpl. now rewrite H. Qed.

Lemma eval_Im rho e v : eval sph_harm rho e = Ok v -> eval sph_harm rho (Im e) = Ok (Cimag v).
Proof. intro H. simpl. now rewrite H. Qed.

Lemma eval_weighted_abs_sq rho pre w c v :
  eval sph_harm rho pre = Ok c -> eval sph_harm rho w = Ok v ->
  eval sph_harm rho (Mul [pre; Pow (Abs w) 2]) = Ok (Cprod [c; abs_sq v]).
Proof.
  intros Hc Hv. cbn [eval map sequence]. now rewrite Hc, Hv.
Qed.

Lemma eval_flip_unfolded rho plus minus P t p f n ks ms kv :
  binds_intensity rho plus minus P t p f ks ms -> In kv ks ->
  eval sph_harm rho (flip_unfolded n ms kv)
  = Ok (flip_value sph_harm plus minus P t p f n ms kv).
Proof.
  intros (HP & Ht & Hp & Hf & Hamp) Hkv.
  assert (Hminus : eval sph_harm rho one_minus_Py
                   = Ok (Csum [RtoC 1; Cprod [RtoC (IZR (-1)); P]])).
  { unfold one_minus_Py, Py. cbn [eval map sequence].
    unfold fetch. fold Py_s. rewrite HP. reflexivity. }
  assert (Hplus : eval sph_harm rho one_plus_Py = Ok (Csum [RtoC 1; P])).
  { unfold one_plus_Py, Py. cbn [eval map sequence].
    unfold fetch. fold Py_s. rewrite HP. reflexivity. }
  assert (Hw : forall A part partv a,
             (forall e v, eval sph_harm rho e = Ok v ->
                          eval sph_harm rho (part e) = Ok (partv v)) ->
             (forall mv, In mv ms -> rho (IdxS A (IVal mv) (IVal kv)) = Some (a mv)) ->
             eval sph_harm rho (wave_unfolded A part n ms kv)
             = Ok (wave_value sph_harm a partv n ms t p f)).
  { intros. now apply eval_wave_unfolded. }
  unfold flip_unfolded, flip_value.
  change (eval sph_harm rho (Add ?es))
    with (vs <- sequence (map (eval sph_harm rho) es) ;; Ok (Csum vs)).
  cbn [map sequence].
  rewrite (eval_weighted_abs_sq _ _ _ _ _ Hminus
             (Hw lm Re Creal (fun mv => minus mv kv) (eval_Re rho)
                 (fun mv Hmv => proj2 (Hamp mv kv Hmv Hkv)))).
  rewrite (eval_weighted_abs_sq _ _ _ _ _ Hminus
             (Hw lp Im Cimag (fun mv => plus mv kv) (eval_Im rho)
                 (fun mv Hmv => proj1 (Hamp mv kv Hmv Hkv)))).
  rewrite (eval_weighted_abs_sq _ _ _ _ _ Hplus
             (Hw lp Re Creal (fun mv => plus mv kv) (eval_Re rho)
                 (fun mv Hmv => proj1 (Hamp mv kv Hmv Hkv)))).
  rewrite (eval_weighted_abs_sq _ _ _ _ _ Hplus
             (Hw lm Im Cimag (fun mv => minus mv kv) (eval_Im rho)
                 (fun mv Hmv => proj2 (Hamp mv kv Hmv Hkv)))).
  reflexivity.
Qed.

(** The unfolded tree has the value that the formula of the notebook's first
    cell gives. *)
Lemma eval_intensity rho plus minus kap P t p f n ks ms :
  rho kappa_s = Some kap ->
  binds_intensity rho plus minus P t p f ks ms ->
  eval sph_harm rho (doit (intensity n ks ms))
  = Ok (intensity_value sph_harm plus minus kap P t p f n ks ms).
Proof.
  intros Hk Hb. rewrite doit_intensity. unfold intensity_unfolded, intensity_value.
  change (eval sph_harm rho (Mul [Int 2; kappa; ?s]))
    with (vs <- sequence [eval sph_harm rho (Int 2); eval sph_harm rho kappa;
                          eval sph_harm rho s] ;;
          Ok (Cprod vs)).
  change (eval sph_harm rho (Add ?es))
    with (vs <- sequence (map (eval sph_harm rho) es) ;; Ok (Csum vs)).
  rewrite map_map.
  rewrite (sequence_map_Ok _ (flip_value sph_harm plus minus P t p f n ms))
    by (intros kv Hkv; eapply eval_flip_unfolded; eauto).
  unfold kappa. cbn [eval sequence bind].
  unfold fetch. fold kappa_s. rewrite Hk. reflexivity.
Qed.

(** *** Non-negative values *)

Lemma nonneg_RtoC x : 0 <= x -> nonneg_real (RtoC x).
Proof. intro H. split; [reflexivity | exact H]. Qed.

Lemma nonneg_Cadd a b : nonneg_real a -> nonneg_real b -> nonneg_real (Cadd a b).
Proof.
  destruct a as [a1 a2], b as [b1 b2]. unfold nonneg_real, Cadd. simpl.
  intros [-> Ha] [-> Hb]. split; lra.
Qed.

Lemma nonneg_Cmul a b : nonneg_real a -> nonneg_real b -> nonneg_real (Cmul a b).
Proof.
  destruct a as [a1 a2], b as [b1 b2]. unfold nonneg_real, Cmul. simpl.
  intros [-> Ha] [-> Hb]. split; [ring | nra].
Qed.

Lemma nonneg_Csum zs : Forall nonneg_real zs -> nonneg_real (Csum zs).
Proof.
  induction 1; simpl; [apply nonneg_RtoC; lra | now apply nonneg_Cadd].
Qed.

Lemma nonneg_Cprod zs : Forall nonneg_real zs -> nonneg_real (Cprod zs).
Proof.
  induction 1; simpl; [apply nonneg_RtoC; lra | now apply nonneg_Cmul].
Qed.

(** A squared magnitude is a non-negative real number. *)
Lemma nonneg_abs_sq z : nonneg_real (abs_sq z).
Proof.
  unfold abs_sq, Cabs. simpl.
  apply nonneg_Cmul; [|apply nonneg_Cmul; [|apply nonneg_RtoC; lra]];
    apply nonneg_RtoC, sqrt_pos.
Qed.

Lemma nonneg_one_minus P : 0 <= P <= 1 ->
  nonneg_real (Csum [RtoC 1; Cprod [RtoC (IZR (-1)); RtoC P]]).
Proof. intro H. unfold nonneg_real. simpl. split; lra. Qed.

Lemma nonneg_one_plus P : 0 <= P <= 1 -> nonneg_real (Csum [RtoC 1; RtoC P]).
Proof. intro H. unfold nonneg_real. simpl. split; lra. Qed.

Lemma nonneg_intensity_value plus minus P t p f n ks ms :
  0 <= P <= 1 ->
  nonneg_real
    (intensity_value sph_harm plus minus (RtoC PI) (RtoC P) t p f n ks ms).
Proof.
  intro HP. unfold intensity_value.
  apply nonneg_Cprod. repeat apply Forall_cons; try apply Forall_nil.
  - apply nonneg_RtoC. lra.
  - apply nonneg_RtoC. pose proof PI_RGT_0. lra.
  - apply nonneg_Csum. apply Forall_forall. intros z Hz.
    apply in_map_iff in Hz. destruct Hz as [kv [<- _]].
    unfold flip_value. apply nonneg_Csum.
    repeat apply Forall_cons; try apply Forall_nil;
      apply nonneg_Cprod; repeat apply Forall_cons; try apply Forall_nil;
      auto using nonneg_one_minus, nonneg_one_plus, nonneg_abs_sq.
Qed.

(** *** Swapping the two families *)

Lemma flip_value_swap plus minus t p f n ms kv :
  flip_value sph_harm plus minus (RtoC 0) t p f n ms kv
  = flip_value sph_harm minus plus (RtoC 0) t p f n ms kv.
Proof.
  unfold flip_value.
  generalize (abs_sq (wave_value sph_harm (fun mv => minus mv kv) Creal n ms t p f)).
  generalize (abs_sq (wave_value sph_harm (fun mv => plus mv kv) Cimag n ms t p f)).
  generalize (abs_sq (wave_value sph_harm (fun mv => plus mv kv) Creal n ms t p f)).
  generalize (abs_sq (wave_value sph_harm (fun mv => minus mv kv) Cimag n ms t p f)).
  intros [a1 a2] [b1 b2] [c1 c2] [d1 d2].
  unfold Csum, Cprod, Cadd, Cmul, RtoC. simpl. f_equal; ring.
Qed.

Lemma intensity_value_swap plus minus kap t p f n ks ms :
  intensity_value sph_harm plus minus kap (RtoC 0) t p f n ks ms
  = intensity_value sph_harm minus plus kap (RtoC 0) t p f n ks ms.
Proof.
  unfold intensity_value.
  replace (map (flip_value sph_harm plus minus (RtoC 0) t p f n ms) ks)
    with (map (flip_value sph_harm minus plus (RtoC 0) t p f n ms) ks);
    [reflexivity|].
  apply map_ext. intro kv. symmetry. apply flip_value_swap.
Qed.

Lemma binds_family_env sc plus minus ks ms :
  binds_intensity (family_env sc plus minus) plus minus
    (sc "P_gamma"%string) (sc "theta"%string) (sc "phi"%string)
    (sc "Phi"%string) ks ms.
Proof. repeat split. Qed.

End NumericFacts.

(** ** The symbols of the unfolded intensity are arguments *)

Lemma In_wave_occurrences A part n ms kv mv :
  In mv ms ->
  In (IdxS A (IVal mv) (IVal kv))
     (symbol_occurrences (wave_unfolded A part n ms kv)).
Proof.
  intro Hmv. unfold wave_unfolded. cbn [symbol_occurrences].
  apply in_flat_map. exists (wave_term A part n kv mv). split.
  - now apply in_map.
  - unfold wave_term. cbn [symbol_occurrences flat_map]. now left.
Qed.

Lemma In_flip_occurrences A n ms kv mv :
  A = lp \/ A = lm -> In mv ms ->
  In (IdxS A (IVal mv) (IVal kv)) (symbol_occurrences (flip_unfolded n ms kv)).
Proof.
  intros HA Hmv. unfold flip_unfolded.
  cbn [symbol_occurrences flat_map]. rewrite !in_app_iff.
  pose proof (In_wave_occurrences lm Re n ms kv mv Hmv).
  pose proof (In_wave_occurrences lp Im n ms kv mv Hmv).
  destruct HA as [-> | ->]; tauto.
Qed.

Lemma amplitude_in_amp_symbols A n ks ms mv kv :
  A = lp \/ A = lm -> In mv ms -> In kv ks ->
  In (IdxS A (IVal mv) (IVal kv)) (amp_symbols_of (intensity n ks ms)).
Proof.
  intros HA Hmv Hkv.
  unfold amp_symbols_of, free_symbols_sorted, free_symbols.
  apply filter_In. split; [|reflexivity].
  apply In_sorted_by_str, nodup_In.
  rewrite doit_intensity. unfold intensity_unfolded.
  cbn [symbol_occurrences flat_map]. rewrite !in_app_iff. right. right. left.
  apply in_flat_map. exists (flip_unfolded n ms kv). split.
  - now apply in_map.
  - now apply In_flip_occurrences.
Qed.

Lemma amplitude_in_arguments A n ks ms mv kv :
  A = lp \/ A = lm -> In mv ms -> In kv ks ->
  In (IdxS A (IVal mv) (IVal kv)) (arguments_of (intensity n ks ms)).
Proof.
  intros HA Hmv Hkv. unfold arguments_of. do 4 right.
  now apply amplitude_in_amp_symbols.
Qed.

Lemma positional_map (g : symb -> C) (syms : list symb) s :
  In s syms -> positional syms (map g syms) s = Some (g s).
Proof.
  induction syms as [|a syms IH]; intro Hin; [contradiction|].
  simpl. destruct (symb_eq_dec s a) as [->|Hne]; [reflexivity|].
  apply IH. destruct Hin; congruence.
Qed.

(** What [plot] passes to the compiled function for the notebook's sliders:
    the point, the two scalar sliders, and [magnitude * exp(i * phase)] for
    every amplitude, in the order of the arguments. *)
Lemma plot_arguments_notebook th ph Phi_val Py_val mag phase :
  plot_arguments th ph (controls_of amp_symbols Phi_val Py_val mag phase)
  = Ok (RtoC th :: RtoC ph :: RtoC Phi_val :: RtoC Py_val
          :: map (fun s => polar (mag s) (phase s)) amp_symbols).
Proof. reflexivity. Qed.

Lemma kappa_not_in_arguments e : ~ In kappa_s (arguments_of e).
Proof.
  unfold arguments_of, amp_symbols_of. intros [H|[H|[H|[H|H]]]];
    try discriminate.
  apply filter_In in H. destruct H as [_ H]. discriminate.
Qed.

Section CompiledIntensity.

Variable sph_harm : Z -> Z -> C -> C -> C.
Variable expand : expr -> expr.

(** What the notebook relies on: [expand] keeps the value of every tree that
    has one. *)
Hypothesis expand_value :
  forall rho e v, eval sph_harm rho e = Ok v -> eval sph_harm rho (expand e) = Ok v.

Lemma bound_env_kappa rho :
  bound_env sph_harm rho [(kappa_s, Pi)] kappa_s = Some (RtoC PI).
Proof.
  unfold bound_env. cbn [rule].
  destruct (symb_eq_dec kappa_s kappa_s); [reflexivity | congruence].
Qed.

Lemma bound_env_other rho s :
  s <> kappa_s -> bound_env sph_harm rho [(kappa_s, Pi)] s = rho s.
Proof.
  intro Hs. unfold bound_env. cbn [rule].
  destruct (symb_eq_dec s kappa_s); [congruence | reflexivity].
Qed.

(** The plotted tree has the value of the formula with kappa equal to pi. *)
Lemma eval_plotted rho plus minus P t p f n ks ms :
  binds_intensity rho plus minus P t p f ks ms ->
  eval sph_harm rho (plotted_expr_of expand (intensity n ks ms))
  = Ok (intensity_value sph_harm plus minus (RtoC PI) P t p f n ks ms).
Proof.
  intros (HP & Ht & Hp & Hf & Hamp).
  unfold plotted_expr_of. apply expand_value.
  rewrite eval_xreplace.
  - apply eval_intensity; [apply bound_env_kappa|].
    repeat split; try (rewrite bound_env_other by discriminate; assumption);
      rewrite bound_env_other by discriminate; now apply Hamp.
  - intros s v. cbn [rule].
    destruct (symb_eq_dec s kappa_s); [|discriminate].
    intros [= <-]. now eexists.
Qed.

(** What a positional call of the compiled intensity returns. *)
Lemma call_intensity_func n ks ms tv pv fv Pv amps :
  List.length amps = List.length (amp_symbols_of (intensity n ks ms)) ->
  exists f,
    intensity_func_of expand (intensity n ks ms) = Ok f /\
    c_args f = arguments_of (intensity n ks ms) /\
    call sph_harm f (tv :: pv :: fv :: Pv :: amps)
    = Ok (intensity_value sph_harm
            (amplitude_at (c_args f) (tv :: pv :: fv :: Pv :: amps) lp)
            (amplitude_at (c_args f) (tv :: pv :: fv :: Pv :: amps) lm)
            (RtoC PI) Pv tv pv fv n ks ms).
Proof.
  intro Hlen. unfold intensity_func_of. rewrite lambdify_arguments.
  eexists. split; [reflexivity|]. split; [reflexivity|].
  unfold call. cbn [c_args c_body].
  assert (Hlen' : List.length (tv :: pv :: fv :: Pv :: amps)
                  = List.length (arguments_of (intensity n ks ms))).
  { unfold arguments_of. cbn [List.length]. now rewrite Hlen. }
  rewrite Hlen', Nat.eqb_refl.
  apply eval_plotted. unfold binds_intensity.
  do 4 (split; [reflexivity|]).
  intros mv kv Hmv Hkv. split.
  - destruct (positional_bound _ _ _ Hlen'
                (amplitude_in_arguments lp n ks ms mv kv
                   (or_introl eq_refl) Hmv Hkv)) as [c Hc].
    unfold amplitude_at. now rewrite Hc.
  - destruct (positional_bound _ _ _ Hlen'
                (amplitude_in_arguments lm n ks ms mv kv
                   (or_intror eq_refl) Hmv Hkv)) as [c Hc].
    unfold amplitude_at. now rewrite Hc.
Qed.

(** What [plot] draws at a point of the grid, for every position of the
    notebook's sliders. *)
Lemma plot_value_notebook th ph Phi_val Py_val mag phase :
  plot_value sph_harm (intensity_func expand) th ph
    (controls_of amp_symbols Phi_val Py_val mag phase)
  = Ok (intensity_value sph_harm
          (fun mv kv => polar (mag (IdxS lp (IVal mv) (IVal kv)))
                              (phase (IdxS lp (IVal mv) (IVal kv))))
          (fun mv kv => polar (mag (IdxS lm (IVal mv) (IVal kv)))
                              (phase (IdxS lm (IVal mv) (IVal kv))))
          (RtoC PI) (RtoC Py_val) (RtoC th) (RtoC ph) (RtoC Phi_val)
          max_l k_values m_range).
Proof.
  unfold plot_value, intensity_func, intensity_func_of.
  rewrite lambdify_arguments, plot_arguments_notebook. cbn [bind].
  unfold call. cbn [c_args c_body].
  replace (Nat.eqb _ _) with true
    by (unfold arguments_of; cbn [List.length];
        fold amp_symbols; now rewrite length_map, Nat.eqb_refl).
  apply eval_plotted. unfold binds_intensity.
  do 4 (split; [reflexivity|]).
  intros mv kv Hmv Hkv.
  pose proof (amplitude_in_amp_symbols lp max_l k_values m_range mv kv
                (or_introl eq_refl) Hmv Hkv) as Hp.
  pose proof (amplitude_in_amp_symbols lm max_l k_values m_range mv kv
                (or_intror eq_refl) Hmv Hkv) as Hm.
  fold intensity_expr in Hp, Hm. fold amp_symbols in Hp, Hm.
  unfold arguments_of. fold amp_symbols.
  split; cbn [positional];
    repeat match goal with
           | |- context [symb_eq_dec ?a ?b] =>
               destruct (symb_eq_dec a b); [discriminate|]
           end;
    now apply (positional_map (fun s => polar (mag s) (phase s))).
Qed.

Lemma call_intensity_nonneg n ks ms tv pv fv (P : R) amps :
  0 <= P <= 1 ->
  List.length amps = List.length (amp_symbols_of (intensity n ks ms)) ->
  exists f x,
    intensity_func_of expand (intensity n ks ms) = Ok f /\
    call sph_harm f (tv :: pv :: fv :: RtoC P :: amps) = Ok (RtoC x) /\
    0 <= x.
Proof.
  intros HP Hlen.
  destruct (call_intensity_func n ks ms tv pv fv (RtoC P) amps Hlen)
    as (f & Hf & _ & Hcall).
  match type of Hcall with _ = Ok ?w => remember w as v eqn:Ev end.
  assert (Hnn : nonneg_real v) by (subst v; now apply nonneg_intensity_value).
  destruct v as [a b]. destruct Hnn as [Him Hre]. simpl in Him, Hre. subst b.
  exists f, a. auto.
Qed.

(** C2: the compiled intensity returns a non-negative real number at every
    point, for every polarization between 0 and 1 and all amplitude
    coefficients, and so it does in the scenario of the suggested parameter
    values at theta = pi/2, phi = 0, Phi = 0. *)
Theorem intensity_is_never_negative n ks ms (tv pv fv : C) (P : R) (amps : list C) :
  0 <= P <= 1 ->
  List.length amps = List.length (amp_symbols_of (intensity n ks ms)) ->
  (exists f x,
      intensity_func_of expand (intensity n ks ms) = Ok f /\
      call sph_harm f (tv :: pv :: fv :: RtoC P :: amps) = Ok (RtoC x) /\
      0 <= x) /\
  (exists f x,
      intensity_func expand = Ok f /\
      call sph_harm f scenario_arguments = Ok (RtoC x) /\
      0 <= x).
Proof.
  intros HP Hlen. split.
  - now apply call_intensity_nonneg.
  - apply (call_intensity_nonneg max_l k_values m_range); [lra | reflexivity].
Qed.

(** C3: at polarization 0 the intensity does not change when the plus and
    the minus family of coefficients are exchanged; this holds for the
    unfolded tree and for the tree that is plotted, and the value exists. *)
Theorem swapping_families_at_zero_polarization
    (sc : string -> C) (x y : Z -> Z -> C) n ks ms :
  sc "P_gamma"%string = RtoC 0 ->
  eval sph_harm (family_env sc x y) (doit (intensity n ks ms))
  = eval sph_harm (family_env sc y x) (doit (intensity n ks ms)) /\
  eval sph_harm (family_env sc x y) (plotted_expr_of expand (intensity n ks ms))
  = eval sph_harm (family_env sc y x) (plotted_expr_of expand (intensity n ks ms)) /\
  exists v, eval sph_harm (family_env sc x y) (doit (intensity n ks ms)) = Ok v.
Proof.
  intro HP.
  pose proof (binds_family_env sc x y ks ms) as Hxy.
  pose proof (binds_family_env sc y x ks ms) as Hyx.
  rewrite HP in Hxy, Hyx.
  rewrite (eval_intensity sph_harm _ _ _ (sc "kappa"%string) _ _ _ _ n ks ms
             eq_refl Hxy).
  rewrite (eval_intensity sph_harm _ _ _ (sc "kappa"%string) _ _ _ _ n ks ms
             eq_refl Hyx).
  rewrite (eval_plotted _ _ _ _ _ _ _ n ks ms Hxy).
  rewrite (eval_plotted _ _ _ _ _ _ _ n ks ms Hyx).
  rewrite !(intensity_value_swap sph_harm x y).
  repeat split. now eexists.
Qed.

Lemma value_symbols_xreplace_kappa e :
  ~ In kappa_s (value_symbols (xreplace [(kappa_s, Pi)] e)).
Proof.
  induction e as [z| | |s|b i j|es IH|es IH|a n IH|a IH|a IH|a IH|a IH
                 |n' m' t p IHt IHp|n' m' t p f IHt IHp IHf|a idx IH]
    using expr_rect_list;
    cbn [xreplace value_symbols rule]; try assumption; try (now intros []).
  - destruct (symb_eq_dec (SymS s) kappa_s) as [E|E]; simpl; [tauto|].
    intros [E'|[]]. now apply E.
  - intro Hin. apply in_flat_map in Hin. destruct Hin as [a' [Ha' Hin]].
    apply in_map_iff in Ha'. destruct Ha' as [a [<- Ha]].
    rewrite Forall_forall in IH. exact (IH a Ha Hin).
  - intro Hin. apply in_flat_map in Hin. destruct Hin as [a' [Ha' Hin]].
    apply in_map_iff in Ha'. destruct Ha' as [a [<- Ha]].
    rewrite Forall_forall in IH. exact (IH a Ha Hin).
  - intro Hin. apply in_app_or in Hin. tauto.
  - intro Hin. apply in_app_or in Hin. destruct Hin as [|Hin]; [tauto|].
    apply in_app_or in Hin. tauto.
Qed.

(** C9: kappa is not an argument of the compiled function; it is replaced by
    pi before the tree is compiled, every call returns the value of the
    formula with kappa equal to pi, and so does [plot] for every position of
    the sliders. *)
Theorem kappa_is_fixed_to_pi n ks ms (tv pv fv Pv : C) (amps : list C) :
  List.length amps = List.length (amp_symbols_of (intensity n ks ms)) ->
  ~ In kappa_s (value_symbols (xreplace [(kappa_s, Pi)] (doit (intensity n ks ms)))) /\
  (exists f,
      intensity_func_of expand (intensity n ks ms) = Ok f /\
      ~ In kappa_s (c_args f) /\
      call sph_harm f (tv :: pv :: fv :: Pv :: amps)
      = Ok (intensity_value sph_harm
              (amplitude_at (c_args f) (tv :: pv :: fv :: Pv :: amps) lp)
              (amplitude_at (c_args f) (tv :: pv :: fv :: Pv :: amps) lm)
              (RtoC PI) Pv tv pv fv n ks ms)) /\
  (forall th ph Phi_val Py_val mag phase,
      plot_value sph_harm (intensity_func expand) th ph
        (controls_of amp_symbols Phi_val Py_val mag phase)
      = Ok (intensity_value sph_harm
              (fun mv kv => polar (mag (IdxS lp (IVal mv) (IVal kv)))
                                  (phase (IdxS lp (IVal mv) (IVal kv))))
              (fun mv kv => polar (mag (IdxS lm (IVal mv) (IVal kv)))
                                  (phase (IdxS lm (IVal mv) (IVal kv))))
              (RtoC PI) (RtoC Py_val) (RtoC th) (RtoC ph) (RtoC Phi_val)
              max_l k_values m_range)).
Proof.
  intro Hlen. split; [apply value_symbols_xreplace_kappa|].
  split; [|apply plot_value_notebook].
  destruct (call_intensity_func n ks ms tv pv fv Pv amps Hlen)
    as (f & Hf & Hargs & Hcall).
  exists f. split; [exact Hf|]. split; [|exact Hcall].
  rewrite Hargs. apply kappa_not_in_arguments.
Qed.

End CompiledIntensity.

Lemma expand_nothing_value sph_harm rho e v :
  eval sph_harm rho e = Ok v -> eval sph_harm rho (expand_nothing e) = Ok v.
Proof. exact (fun H => H). Defined.

Lemma intensity_is_never_negative_witness :
  0 <= 1 <= 1 /\
  List.length scenario_amplitudes
  = List.length (amp_symbols_of (intensity 2 [0%Z] m_range)) /\
  (exists f x,
      intensity_func_of expand_nothing (intensity 2 [0%Z] m_range) = Ok f /\
      call sph_harm_2 f
        (RtoC (PI / 2) :: RtoC 0 :: RtoC 0 :: RtoC 1 :: scenario_amplitudes)
      = Ok (RtoC x) /\
      0 <= x).
Proof.
  split; [lra|]. split; [reflexivity|].
  apply (intensity_is_never_negative sph_harm_2 expand_nothing
           (expand_nothing_value sph_harm_2) 2 [0%Z] m_range
           (RtoC (PI / 2)) (RtoC 0) (RtoC 0) 1 scenario_amplitudes);
    [lra | reflexivity].
Defined.

Lemma swapping_families_at_zero_polarization_witness :
  (fun _ : string => RtoC 0) "P_gamma"%string = RtoC 0 /\
  eval sph_harm_2 (family_env (fun _ => RtoC 0) (fun _ _ => RtoC 1) (fun _ _ => Ci))
    (doit intensity_expr)
  = eval sph_harm_2 (family_env (fun _ => RtoC 0) (fun _ _ => Ci) (fun _ _ => RtoC 1))
      (doit intensity_expr).
Proof.
  split; [reflexivity|].
  apply (swapping_families_at_zero_polarization sph_harm_2 expand_nothing
           (expand_nothing_value sph_harm_2)
           (fun _ => RtoC 0) (fun _ _ => RtoC 1) (fun _ _ => Ci)
           max_l k_values m_range).
  reflexivity.
Defined.

Lemma kappa_is_fixed_to_pi_witness :
  List.length scenario_amplitudes
  = List.length (amp_symbols_of (intensity 2 [0%Z] m_range)) /\
  exists f,
    intensity_func_of expand_nothing (intensity 2 [0%Z] m_range) = Ok f /\
    ~ In kappa_s (c_args f).
Proof.
  split; [reflexivity|].
  destruct (kappa_is_fixed_to_pi sph_harm_2 expand_nothing
              (expand_nothing_value sph_harm_2) 2 [0%Z] m_range
              (RtoC (PI / 2)) (RtoC 0) (RtoC 0) (RtoC 1) scenario_amplitudes
              eq_refl) as [_ [(f & Hf & Hk & _) _]].
  exists f. split; assumption.
Defined.

(** ** A symbol that is not an argument *)

(** In a tree without pool sums, every symbol whose value is asked for is
    among the symbols that [free_symbols] collects. *)
Lemma value_symbols_occur (e : expr) :
  unfolded e = true -> incl (value_symbols e) (symbol_occurrences e).
Proof.
  induction e as [z| | |x|b i j|es IH|es IH|a n IH|a IH|a IH|a IH|a IH
                 |n' m' t p IHt IHp|n' m' t p f IHt IHp IHf|a idx IH]
    using expr_rect_list; intro Hun; simpl in *;
    try discriminate; try (now apply IH); try apply incl_refl.
  - intros s [<- | []]. now left.
  - intros s Hs. apply in_flat_map in Hs. destruct Hs as [a [Ha Hs]].
    apply in_flat_map. exists a. split; [exact Ha|].
    rewrite Forall_forall in IH. rewrite forallb_forall in Hun.
    now apply (IH a Ha (Hun a Ha)).
  - intros s Hs. apply in_flat_map in Hs. destruct Hs as [a [Ha Hs]].
    apply in_flat_map. exists a. split; [exact Ha|].
    rewrite Forall_forall in IH. rewrite forallb_forall in Hun.
    now apply (IH a Ha (Hun a Ha)).
  - apply andb_prop in Hun. destruct Hun as [Ht Hp].
    intros s Hs. apply in_or_app. right. apply in_or_app. right.
    apply in_app_or in Hs. apply in_or_app.
    destruct Hs as [Hs | Hs]; [left; now apply IHt | right; now apply IHp].
Qed.

Lemma kappa_in_unfolded_intensity n ks ms :
  In kappa_s (free_symbols (doit (intensity n ks ms))).
Proof.
  unfold free_symbols. apply nodup_In. rewrite doit_intensity.
  unfold intensity_unfolded. cbn [symbol_occurrences flat_map kappa app].
  now left.
Qed.

Lemma coefficients_are_arguments e s :
  In s (value_symbols (doit e)) -> isinstance_Indexed s = true ->
  In s (arguments_of e).
Proof.
  intros Hs Hidx. unfold arguments_of. do 4 right.
  unfold amp_symbols_of, free_symbols_sorted, free_symbols.
  apply filter_In. split; [|exact Hidx].
  apply In_sorted_by_str, nodup_In.
  apply value_symbols_occur; [apply unfolded_doit_subs | exact Hs].
Qed.

(** C6 as the code has it: for every valid input the unfolded intensity
    contains the free symbol kappa, which is not in the argument list of the
    notebook, while every indexed coefficient of the tree is; [lambdify]
    raises no error for the missing symbol when it compiles and returns a
    function of the declared arguments over this tree. *)
Theorem missing_plain_symbol_is_compiled (n : Z) (ks ms : list Z) :
  valid_ranges n ks ms ->
  In kappa_s (free_symbols (doit (intensity n ks ms))) /\
  ~ In kappa_s (arguments_of (intensity n ks ms)) /\
  (forall s, In s (value_symbols (doit (intensity n ks ms))) ->
             isinstance_Indexed s = true ->
             In s (arguments_of (intensity n ks ms))) /\
  exists f,
    lambdify (arguments_of (intensity n ks ms)) (doit (intensity n ks ms)) = Ok f /\
    c_args f = arguments_of (intensity n ks ms) /\
    c_body f = doit (intensity n ks ms).
Proof.
  intros _. split; [apply kappa_in_unfolded_intensity|].
  split; [apply kappa_not_in_arguments|].
  split; [apply coefficients_are_arguments|].
  rewrite lambdify_arguments. eexists. repeat split.
Qed.

(** C6 as stated fails: the unfolded intensity contains kappa, kappa is not
    among the notebook's arguments, and [lambdify] returns a function. *)
Lemma missing_symbol_is_no_compile_error :
  ~ (forall args e s,
        In s (free_symbols e) -> ~ In s args ->
        exists err, lambdify args e = Err err).
Proof.
  intro H.
  destruct (H arguments (doit intensity_expr) kappa_s) as [err Herr].
  - apply nodup_In. vm_compute. now left.
  - apply kappa_not_in_arguments.
  - vm_compute in Herr. discriminate.
Qed.

Lemma missing_plain_symbol_is_compiled_witness :
  valid_ranges max_l k_values m_range /\
  In kappa_s (free_symbols (doit intensity_expr)) /\
  ~ In kappa_s arguments /\
  exists f, lambdify arguments (doit intensity_expr) = Ok f /\ c_args f = arguments.
Proof.
  split; [exact notebook_ranges_valid|].
  destruct (missing_plain_symbol_is_compiled max_l k_values m_range
              notebook_ranges_valid) as (Hin & Hnot & _ & f & Hf & Hargs & _).
  split; [exact Hin|]. split; [exact Hnot|].
  exists f. split; [exact Hf | exact Hargs].
Defined.

(** ** The amplitude sliders *)

(** C8 on the notebook's sliders: every amplitude coefficient among the
    arguments has one magnitude slider and one phase slider, both starting at
    0, and [plot] passes [magnitude * exp(i * phase)] for it, in the order of
    the arguments.  The phase slider ends at 2, and the phase is used in
    radians, so the slider covers less than the full turn of 2 pi. *)
Theorem amplitude_sliders_and_phase_range :
  Forall (fun s =>
            count_occ string_dec (map fst sliders) (str_symb s ++ "_mag")%string
            = 1%nat /\
            count_occ string_dec (map fst sliders) (str_symb s ++ "_phi")%string
            = 1%nat /\
            dict_get (str_symb s ++ "_mag")%string sliders
            = Some (magnitude_slider (str_symb s)) /\
            dict_get (str_symb s ++ "_phi")%string sliders = Some phase_slider)
    amp_symbols /\
  (forall name, slider_min (magnitude_slider name) = 0) /\
  slider_min phase_slider = 0 /\
  slider_max phase_slider = 2 /\
  slider_max phase_slider - slider_min phase_slider < 2 * PI /\
  (forall th ph Phi_val Py_val mag phase,
      map fst (controls_of amp_symbols Phi_val Py_val mag phase)
      = map fst sliders /\
      plot_arguments th ph (controls_of amp_symbols Phi_val Py_val mag phase)
      = Ok (RtoC th :: RtoC ph :: RtoC Phi_val :: RtoC Py_val
              :: map (fun s => polar (mag s) (phase s)) amp_symbols)).
Proof.
  split.
  { repeat constructor. }
  split; [reflexivity|]. split; [reflexivity|]. split; [reflexivity|].
  split.
  { simpl. pose proof PI2_1. lra. }
  intros th ph Phi_val Py_val mag phase.
  split; [reflexivity | apply plot_arguments_notebook].
Qed.

(** * Further properties of the notebook's code *)

(** ** [create_range] *)

Lemma create_range_facts (min_ max_ : Z) :
  (forall z, In z (create_range min_ max_) <-> (min_ <= z <= max_)%Z) /\
  List.length (create_range min_ max_) = Z.to_nat (max_ + 1 - min_) /\
  StronglySorted Z.lt (create_range min_ max_) /\
  (create_range min_ max_ = [] <-> (max_ < min_)%Z).
Proof.
  unfold create_range. split; [|split; [|split]].
  - intro z. rewrite in_map_iff. split.
    + intros [i [<- Hi]]. apply in_seq in Hi. lia.
    + intro Hz. exists (Z.to_nat (z - min_)). split; [lia|].
      apply in_seq. lia.
  - now rewrite length_map, length_seq.
  - generalize (Z.to_nat (max_ + 1 - min_)) as len.
    generalize 0%nat as start. intros start len. revert start.
    induction len as [|len IH]; intro start; simpl; constructor; [apply IH|].
    apply Forall_forall. intros z Hz. apply in_map_iff in Hz.
    destruct Hz as [i [<- Hi]]. apply in_seq in Hi. lia.
  - split.
    + intro H. apply (f_equal (@List.length Z)) in H.
      rewrite length_map, length_seq in H. simpl in H. lia.
    + intro H. replace (Z.to_nat (max_ + 1 - min_)) with 0%nat by lia.
      reflexivity.
Qed.

(** [create_range(min_, max_)] lists exactly the integers from [min_] to
    [max_], each once and in increasing order; it is empty exactly when
    [max_ < min_]. *)
Theorem create_range_lists_the_interval (min_ max_ : Z) :
  (forall z, In z (create_range min_ max_) <-> (min_ <= z <= max_)%Z) /\
  List.length (create_range min_ max_) = Z.to_nat (max_ + 1 - min_) /\
  StronglySorted Z.lt (create_range min_ max_) /\
  (create_range min_ max_ = [] <-> (max_ < min_)%Z).
Proof. apply create_range_facts. Qed.

(** The azimuthal range [create_range(-max_l, max_l)] is symmetric: it
    contains [-z] whenever it contains [z], it contains 0 as soon as [max_l]
    is not negative, and it has [2 * max_l + 1] elements. *)
Theorem azimuthal_range_is_symmetric (n : Z) :
  (0 <= n)%Z ->
  (forall z, In z (create_range (- n) n) -> In (- z)%Z (create_range (- n) n)) /\
  In 0%Z (create_range (- n) n) /\
  List.length (create_range (- n) n) = Z.to_nat (2 * n + 1).
Proof.
  intro Hn.
  destruct (create_range_facts (- n) n) as (Hin & Hlen & _).
  split; [|split].
  - intros z Hz. apply Hin. apply Hin in Hz. lia.
  - apply Hin. lia.
  - rewrite Hlen. f_equal. lia.
Qed.

Lemma azimuthal_range_is_symmetric_witness :
  (0 <= 2)%Z /\
  In 0%Z (create_range (- 2) 2) /\
  List.length (create_range (- 2) 2) = 5%nat.
Proof.
  split; [lia|].
  destruct (azimuthal_range_is_symmetric 2 ltac:(lia)) as (_ & H0 & Hlen).
  split; [exact H0 | exact Hlen].
Defined.

(** ** The arguments of the compiled intensity *)

Lemma insert_by_str_Permutation x l : Permutation (insert_by_str x l) (x :: l).
Proof.
  induction l as [|y l IH]; simpl; [reflexivity|].
  destruct (String.leb (str_symb x) (str_symb y)); [reflexivity|].
  rewrite IH. apply perm_swap.
Qed.

Lemma sorted_by_str_Permutation l : Permutation (sorted_by_str l) l.
Proof.
  induction l as [|x l IH]; simpl; [reflexivity|].
  rewrite insert_by_str_Permutation. now constructor.
Qed.

Lemma NoDup_amp_symbols_of e : NoDup (amp_symbols_of e).
Proof.
  unfold amp_symbols_of, free_symbols_sorted, free_symbols.
  apply NoDup_filter.
  eapply Permutation_NoDup;
    [symmetry; apply sorted_by_str_Permutation | apply NoDup_nodup].
Qed.

Lemma NoDup_arguments_of e : NoDup (arguments_of e).
Proof.
  unfold arguments_of.
  assert (Hplain : forall name, ~ In (SymS name) (amp_symbols_of e)).
  { intros name H. apply filter_In in H. destruct H as [_ H]. discriminate. }
  repeat constructor; try apply NoDup_amp_symbols_of;
    simpl; intros H;
    repeat match goal with
           | H : _ \/ _ |- _ => destruct H as [H|H]
           end;
    try discriminate; eapply Hplain; eauto.
Qed.

Lemma In_coefficients s ks ms :
  In s (coefficients ks ms) <->
  exists A mv kv, (A = lp \/ A = lm) /\ In mv ms /\ In kv ks /\
                  s = IdxS A (IVal mv) (IVal kv).
Proof.
  unfold coefficients. rewrite in_flat_map. split.
  - intros [A [HA Hs]]. apply in_flat_map in Hs. destruct Hs as [kv [Hkv Hs]].
    apply in_map_iff in Hs. destruct Hs as [mv [<- Hmv]].
    exists A, mv, kv. repeat split; auto.
    destruct HA as [<-|[<-|[]]]; auto.
  - intros (A & mv & kv & HA & Hmv & Hkv & ->). exists A. split.
    + destruct HA as [-> | ->]; simpl; auto.
    + apply in_flat_map. exists kv. split; [exact Hkv|].
      apply in_map_iff. exists mv. auto.
Qed.

Lemma wave_occurrences_inv A part n ms kv s :
  part = Re \/ part = Im ->
  In s (symbol_occurrences (wave_unfolded A part n ms kv)) ->
  (exists mv, In mv ms /\ s = IdxS A (IVal mv) (IVal kv)) \/
  isinstance_Indexed s = false.
Proof.
  intros Hpart Hin. unfold wave_unfolded in Hin. cbn [symbol_occurrences] in Hin.
  apply in_flat_map in Hin. destruct Hin as [e [He Hin]].
  apply in_map_iff in He. destruct He as [mv [<- Hmv]].
  destruct Hpart as [-> | ->]; simpl in Hin;
    repeat match goal with
           | H : _ \/ _ |- _ => destruct H as [H|H]
           end;
    try contradiction; subst s; eauto.
Qed.

Lemma weighted_occurrences_inv pre A part n ms kv s :
  pre = one_minus_Py \/ pre = one_plus_Py ->
  part = Re \/ part = Im ->
  In s (symbol_occurrences (Mul [pre; Pow (Abs (wave_unfolded A part n ms kv)) 2])) ->
  isinstance_Indexed s = true ->
  exists mv, In mv ms /\ s = IdxS A (IVal mv) (IVal kv).
Proof.
  intros Hpre Hpart Hin Hidx.
  cbn [symbol_occurrences flat_map] in Hin. rewrite !in_app_iff in Hin.
  destruct Hin as [Hin|[Hin|[]]].
  - exfalso. destruct Hpre as [-> | ->]; simpl in Hin;
      repeat match goal with
             | H : _ \/ _ |- _ => destruct H as [H|H]
             end; try contradiction; subst s; discriminate.
  - destruct (wave_occurrences_inv A part n ms kv s Hpart Hin)
      as [Hex | Hno]; [exact Hex | congruence].
Qed.

Lemma flip_occurrences_inv n ms kv s :
  In s (symbol_occurrences (flip_unfolded n ms kv)) ->
  isinstance_Indexed s = true ->
  exists A mv, (A = lp \/ A = lm) /\ In mv ms /\ s = IdxS A (IVal mv) (IVal kv).
Proof.
  intros Hin Hidx. unfold flip_unfolded in Hin.
  cbn [symbol_occurrences] in Hin. apply in_flat_map in Hin.
  destruct Hin as [e [[<-|[<-|[<-|[<-|[]]]]] Hin]].
  - destruct (weighted_occurrences_inv _ lm Re n ms kv s
                (or_introl eq_refl) (or_introl eq_refl) Hin Hidx) as [mv [? ?]].
    exists lm, mv. auto.
  - destruct (weighted_occurrences_inv _ lp Im n ms kv s
                (or_introl eq_refl) (or_intror eq_refl) Hin Hidx) as [mv [? ?]].
    exists lp, mv. auto.
  - destruct (weighted_occurrences_inv _ lp Re n ms kv s
                (or_intror eq_refl) (or_introl eq_refl) Hin Hidx) as [mv [? ?]].
    exists lp, mv. auto.
  - destruct (weighted_occurrences_inv _ lm Im n ms kv s
                (or_intror eq_refl) (or_intror eq_refl) Hin Hidx) as [mv [? ?]].
    exists lm, mv. auto.
Qed.

Lemma amp_symbols_are_coefficients n ks ms s :
  In s (amp_symbols_of (intensity n ks ms)) <-> In s (coefficients ks ms).
Proof.
  rewrite In_coefficients. split.
  - unfold amp_symbols_of, free_symbols_sorted, free_symbols.
    rewrite filter_In, In_sorted_by_str, nodup_In, doit_intensity.
    intros [Hin Hidx]. unfold intensity_unfolded in Hin.
    cbn [symbol_occurrences flat_map] in Hin. rewrite !in_app_iff in Hin.
    destruct Hin as [[]|[Hin|[Hin|[]]]].
    + simpl in Hin. destruct Hin as [<-|[]]. discriminate.
    + apply in_flat_map in Hin. destruct Hin as [e [He Hin]].
      apply in_map_iff in He. destruct He as [kv [<- Hkv]].
      destruct (flip_occurrences_inv n ms kv s Hin Hidx)
        as (A & mv & HA & Hmv & ->).
      exists A, mv, kv. auto.
  - intros (A & mv & kv & HA & Hmv & Hkv & ->).
    now apply amplitude_in_amp_symbols.
Qed.

Lemma NoDup_map_injective {A B : Type} (g : A -> B) (xs : list A) :
  (forall a b, g a = g b -> a = b) -> NoDup xs -> NoDup (map g xs).
Proof.
  intros Hinj. induction 1 as [|x xs Hx Hxs IH]; simpl; constructor; auto.
  intro Hin. apply in_map_iff in Hin. destruct Hin as [y [Heq Hy]].
  apply Hinj in Heq. now subst.
Qed.

Lemma NoDup_coefficients ks ms :
  NoDup ks -> NoDup ms -> NoDup (coefficients ks ms).
Proof.
  intros Hks Hms.
  assert (Hfam : forall A,
             NoDup (flat_map (fun kv => map (fun mv => IdxS A (IVal mv) (IVal kv)) ms)
                             ks)).
  { intro A. induction Hks as [|kv ks Hkv Hks IH]; simpl; [constructor|].
    apply NoDup_app; [|exact IH|].
    - apply NoDup_map_injective; [|exact Hms]. now intros a b [= ->].
    - intros s Hs Hs'. apply in_map_iff in Hs. destruct Hs as [mv [<- _]].
      apply in_flat_map in Hs'. destruct Hs' as [kv' [Hkv' Hs']].
      apply in_map_iff in Hs'. destruct Hs' as [mv' [[= _ <-] _]].
      now apply Hkv. }
  unfold coefficients. cbn [flat_map]. rewrite app_nil_r.
  apply NoDup_app; [apply Hfam | apply Hfam |].
  intros s Hs Hs'.
  apply in_flat_map in Hs. destruct Hs as [kv [_ Hs]].
  apply in_map_iff in Hs. destruct Hs as [mv [<- _]].
  apply in_flat_map in Hs'. destruct Hs' as [kv' [_ Hs']].
  apply in_map_iff in Hs'. destruct Hs' as [mv' [Heq _]]. discriminate.
Qed.

Lemma length_coefficients ks ms :
  List.length (coefficients ks ms) = (2 * (List.length ks * List.length ms))%nat.
Proof.
  assert (Hfam : forall A,
             List.length
               (flat_map (fun kv => map (fun mv => IdxS A (IVal mv) (IVal kv)) ms) ks)
             = (List.length ks * List.length ms)%nat).
  { intro A. induction ks as [|kv ks IH]; simpl; [reflexivity|].
    now rewrite length_app, length_map, IH. }
  unfold coefficients. cbn [flat_map].
  rewrite !length_app, !Hfam. simpl. lia.
Qed.

(** ** What [doit] leaves of the intensity *)

Lemma wave_occurrences A part n ms kv s :
  part = Re \/ part = Im ->
  In s (symbol_occurrences (wave_unfolded A part n ms kv)) ->
  In s [theta_s; phi_s; Phi_s; BaseS A] \/
  exists mv, In mv ms /\ s = IdxS A (IVal mv) (IVal kv).
Proof.
  intros Hpart Hin. unfold wave_unfolded in Hin. cbn [symbol_occurrences] in Hin.
  apply in_flat_map in Hin. destruct Hin as [e [He Hin]].
  apply in_map_iff in He. destruct He as [mv [<- Hmv]].
  destruct Hpart as [-> | ->]; simpl in Hin;
    repeat match goal with
           | H : _ \/ _ |- _ => destruct H as [H|H]
           end;
    try contradiction; subst s; simpl; eauto 7.
Qed.

Lemma weighted_occurrences pre A part n ms kv s :
  pre = one_minus_Py \/ pre = one_plus_Py ->
  part = Re \/ part = Im ->
  In s (symbol_occurrences (Mul [pre; Pow (Abs (wave_unfolded A part n ms kv)) 2])) ->
  In s [Py_s; theta_s; phi_s; Phi_s; BaseS A] \/
  exists mv, In mv ms /\ s = IdxS A (IVal mv) (IVal kv).
Proof.
  intros Hpre Hpart Hin.
  cbn [symbol_occurrences flat_map] in Hin. rewrite !in_app_iff in Hin.
  destruct Hin as [Hin|[Hin|[]]].
  - left. left. destruct Hpre as [-> | ->]; simpl in Hin;
      repeat match goal with
             | H : _ \/ _ |- _ => destruct H as [H|H]
             end; try contradiction; now subst s.
  - destruct (wave_occurrences A part n ms kv s Hpart Hin) as [Hplain | Hex];
      [left; now right | now right].
Qed.

Lemma flip_occurrences n ms kv s :
  In s (symbol_occurrences (flip_unfolded n ms kv)) ->
  In s [Py_s; theta_s; phi_s; Phi_s; BaseS lp; BaseS lm] \/
  exists A mv, (A = lp \/ A = lm) /\ In mv ms /\ s = IdxS A (IVal mv) (IVal kv).
Proof.
  intro Hin. unfold flip_unfolded in Hin.
  cbn [symbol_occurrences] in Hin. apply in_flat_map in Hin.
  assert (Hw : forall pre A part,
             pre = one_minus_Py \/ pre = one_plus_Py ->
             A = lp \/ A = lm -> part = Re \/ part = Im ->
             In s (symbol_occurrences
                     (Mul [pre; Pow (Abs (wave_unfolded A part n ms kv)) 2])) ->
             In s [Py_s; theta_s; phi_s; Phi_s; BaseS lp; BaseS lm] \/
             exists A mv, (A = lp \/ A = lm) /\ In mv ms /\
                          s = IdxS A (IVal mv) (IVal kv)).
  { intros pre A part Hpre HA Hpart Hs.
    destruct (weighted_occurrences pre A part n ms kv s Hpre Hpart Hs)
      as [Hplain | [mv [Hmv ->]]].
    - left. simpl in Hplain. destruct HA as [-> | ->]; simpl; tauto.
    - right. exists A, mv. auto. }
  destruct Hin as [e [[<-|[<-|[<-|[<-|[]]]]] Hin]];
    (eapply Hw; [| | |exact Hin]; auto).
Qed.

Lemma intensity_occurrences n ks ms s :
  In s (symbol_occurrences (intensity_unfolded n ks ms)) ->
  In s [kappa_s; Py_s; theta_s; phi_s; Phi_s; BaseS lp; BaseS lm] \/
  In s (coefficients ks ms).
Proof.
  intro Hin. unfold intensity_unfolded in Hin.
  cbn [symbol_occurrences flat_map kappa app] in Hin.
  destruct Hin as [<- | Hin]; [left; now left|].
  rewrite app_nil_r in Hin. apply in_flat_map in Hin.
  destruct Hin as [e [He Hin]]. apply in_map_iff in He.
  destruct He as [kv [<- Hkv]].
  destruct (flip_occurrences n ms kv s Hin) as [Hplain | (A & mv & HA & Hmv & ->)].
  - left. now right.
  - right. apply In_coefficients. exists A, mv, kv. auto.
Qed.

(** For every valid input [doit] unfolds the intensity completely: no pool
    sum and no [Znm] is left, and none of the pool indices k, l, m is still
    a free symbol; the free symbols are among kappa, P_gamma, the three
    angles, the two coefficient bases and the coefficients [A[m, k]] of the
    ranges. *)
Theorem doit_unfolds_completely (n : Z) (ks ms : list Z) :
  valid_ranges n ks ms ->
  unfolded (doit (intensity n ks ms)) = true /\
  (forall s, In s (free_symbols (doit (intensity n ks ms))) ->
             In s [kappa_s; Py_s; theta_s; phi_s; Phi_s; BaseS lp; BaseS lm] \/
             In s (coefficients ks ms)) /\
  ~ In (SymS k) (free_symbols (doit (intensity n ks ms))) /\
  ~ In (SymS l) (free_symbols (doit (intensity n ks ms))) /\
  ~ In (SymS m) (free_symbols (doit (intensity n ks ms))).
Proof.
  intros _.
  assert (Hfree : forall s, In s (free_symbols (doit (intensity n ks ms))) ->
             In s [kappa_s; Py_s; theta_s; phi_s; Phi_s; BaseS lp; BaseS lm] \/
             In s (coefficients ks ms)).
  { intros s Hs. unfold free_symbols in Hs. apply nodup_In in Hs.
    rewrite doit_intensity in Hs. now apply (intensity_occurrences n). }
  assert (Hindex : forall name,
             ~ In name ["kappa"; "P_gamma"; "theta"; "phi"; "Phi"]%string ->
             ~ In (SymS name) (free_symbols (doit (intensity n ks ms)))).
  { intros name Hname Hs. destruct (Hfree _ Hs) as [Hplain | Hcoef].
    - apply Hname. simpl in Hplain. simpl.
      repeat match goal with
             | H : _ \/ _ |- _ => destruct H as [H|H]
             end; try discriminate; try contradiction;
        injection Hplain as <-; tauto.
    - apply In_coefficients in Hcoef.
      destruct Hcoef as (A & mv & kv & _ & _ & _ & Heq). discriminate. }
  split; [apply unfolded_doit_subs|]. split; [exact Hfree|].
  repeat split; apply Hindex; simpl; intros H;
    repeat match goal with
           | H : _ \/ _ |- _ => destruct H as [H|H]
           end; try discriminate; contradiction.
Qed.

Lemma doit_unfolds_completely_witness :
  valid_ranges max_l k_values m_range /\
  unfolded (doit intensity_expr) = true /\
  ~ In (SymS m) (free_symbols (doit intensity_expr)).
Proof.
  split; [exact notebook_ranges_valid|].
  destruct (doit_unfolds_completely max_l k_values m_range notebook_ranges_valid)
    as (Hun & _ & _ & _ & Hm).
  split; [exact Hun | exact Hm].
Defined.

(** The amplitude arguments of the compiled intensity are exactly the
    coefficients [A[m, k]] of the two families with [m] in the azimuthal
    range and [k] among the flip indices, and no argument occurs twice. *)
Theorem amplitude_arguments_are_the_coefficients n ks ms :
  (forall s, In s (amp_symbols_of (intensity n ks ms)) <->
             exists A mv kv, (A = lp \/ A = lm) /\ In mv ms /\ In kv ks /\
                             s = IdxS A (IVal mv) (IVal kv)) /\
  NoDup (arguments_of (intensity n ks ms)).
Proof.
  split.
  - intro s. rewrite amp_symbols_are_coefficients. apply In_coefficients.
  - apply NoDup_arguments_of.
Qed.

(** For ranges without repetition the compiled intensity has four arguments
    for the angles and the polarization and two per pair of an azimuthal
    value and a flip index. *)
Theorem number_of_arguments n ks ms :
  NoDup ks -> NoDup ms ->
  List.length (arguments_of (intensity n ks ms))
  = (4 + 2 * (List.length ks * List.length ms))%nat.
Proof.
  intros Hks Hms. unfold arguments_of. cbn [List.length].
  rewrite <- length_coefficients.
  cbn [Nat.add]. do 4 f_equal. apply Permutation_length.
  apply NoDup_Permutation;
    [apply NoDup_amp_symbols_of | now apply NoDup_coefficients
    | apply amp_symbols_are_coefficients].
Qed.

Lemma number_of_arguments_witness :
  NoDup k_values /\ NoDup m_range /\
  List.length arguments = 14%nat.
Proof.
  assert (Hk : NoDup k_values) by (repeat constructor; simpl; tauto).
  assert (Hm : NoDup m_range).
  { change m_range with (nodup Z.eq_dec m_range). apply NoDup_nodup. }
  split; [exact Hk|]. split; [exact Hm|].
  exact (number_of_arguments max_l k_values m_range Hk Hm).
Defined.

(** ** The value of the intensity *)

Lemma sqrt_square_sum a b : sqrt (a * a + b * b) * sqrt (a * a + b * b) = a * a + b * b.
Proof. apply sqrt_sqrt. nra. Qed.

Lemma abs_sq_pair a b : abs_sq (a, b) = RtoC (a * a + b * b).
Proof.
  unfold abs_sq, Cabs, RtoC. simpl. unfold Cmul, RtoC. simpl.
  pose proof (sqrt_square_sum a b) as H.
  set (r := sqrt (a * a + b * b)) in *.
  f_equal; [|ring]. rewrite <- H. ring.
Qed.

Lemma abs_sq_Cmul c w : abs_sq (Cmul c w) = Cmul (abs_sq c) (abs_sq w).
Proof.
  destruct c as [c1 c2], w as [w1 w2]. unfold Cmul at 1. simpl.
  rewrite !abs_sq_pair. unfold Cmul, RtoC. simpl. f_equal; ring.
Qed.

Lemma Cmul_one_l v : Cmul (RtoC 1) v = v.
Proof. destruct v. unfold Cmul, RtoC. simpl. f_equal; ring. Qed.

Lemma Csum_scale {A : Type} c (g : A -> C) xs :
  Csum (map (fun x => Cmul c (g x)) xs) = Cmul c (Csum (map g xs)).
Proof.
  induction xs as [|x xs IH]; simpl.
  - destruct c. unfold Cmul, RtoC. simpl. f_equal; ring.
  - rewrite IH. destruct c, (g x), (Csum (map g xs)).
    unfold Cmul, Cadd. simpl. f_equal; ring.
Qed.

Section IntensityValue.

Variable sph_harm : Z -> Z -> C -> C -> C.

Lemma wave_value_scale c A part n ms t p f :
  wave_value sph_harm (fun mv => Cmul c (A mv)) part n ms t p f
  = Cmul c (wave_value sph_harm A part n ms t p f).
Proof.
  unfold wave_value. rewrite <- Csum_scale. f_equal. apply map_ext. intro mv.
  destruct c, (A mv), (part (Znm_value sph_harm n mv t p f)).
  unfold Cprod, Cmul, RtoC. simpl. f_equal; ring.
Qed.

Lemma flip_value_scale c plus minus P t p f n ms kv :
  flip_value sph_harm (fun mv kv => Cmul c (plus mv kv))
    (fun mv kv => Cmul c (minus mv kv)) P t p f n ms kv
  = Cmul (abs_sq c) (flip_value sph_harm plus minus P t p f n ms kv).
Proof.
  unfold flip_value.
  rewrite !(wave_value_scale c), !abs_sq_Cmul.
  generalize (abs_sq (wave_value sph_harm (fun mv => minus mv kv) Creal n ms t p f)).
  generalize (abs_sq (wave_value sph_harm (fun mv => plus mv kv) Cimag n ms t p f)).
  generalize (abs_sq (wave_value sph_harm (fun mv => plus mv kv) Creal n ms t p f)).
  generalize (abs_sq (wave_value sph_harm (fun mv => minus mv kv) Cimag n ms t p f)).
  generalize (abs_sq c).
  intros [c1 c2] [a1 a2] [b1 b2] [d1 d2] [e1 e2]. destruct P as [P1 P2].
  unfold Csum, Cprod, Cadd, Cmul, RtoC. simpl. f_equal; ring.
Qed.

Lemma intensity_value_scale c plus minus kap P t p f n ks ms :
  intensity_value sph_harm (fun mv kv => Cmul c (plus mv kv))
    (fun mv kv => Cmul c (minus mv kv)) kap P t p f n ks ms
  = Cmul (abs_sq c) (intensity_value sph_harm plus minus kap P t p f n ks ms).
Proof.
  unfold intensity_value.
  replace (map (flip_value sph_harm (fun mv kv => Cmul c (plus mv kv))
                  (fun mv kv => Cmul c (minus mv kv)) P t p f n ms) ks)
    with (map (fun kv => Cmul (abs_sq c)
                           (flip_value sph_harm plus minus P t p f n ms kv)) ks)
    by (apply map_ext; intro kv; symmetry; apply flip_value_scale).
  rewrite Csum_scale.
  generalize (Csum (map (flip_value sph_harm plus minus P t p f n ms) ks)).
  generalize (abs_sq c).
  intros [c1 c2] [s1 s2]. destruct kap as [k1 k2].
  unfold Cprod, Cmul, RtoC. simpl. f_equal; ring.
Qed.

Lemma abs_sq_unit_phase alpha : abs_sq (Cexp (Cmul (RtoC alpha) Ci)) = RtoC 1.
Proof.
  unfold Cexp, Cmul, RtoC, Ci. simpl. rewrite abs_sq_pair. unfold RtoC. f_equal.
  replace (alpha * 0 - 0 * 1) with 0 by ring. rewrite exp_0.
  pose proof (sin2_cos2 (alpha * 1 + 0 * 0)) as H. unfold Rsqr in H. lra.
Qed.

(** The unfolded tree computes the formula of the notebook's first cell:
    in an environment that gives the scalar symbols and the coefficients
    their values, its value is
    [2 kappa sum_k ((1-P)|sum_m A-[m,k] Re Z|^2 + (1-P)|sum_m A+[m,k] Im Z|^2
    + (1+P)|sum_m A+[m,k] Re Z|^2 + (1+P)|sum_m A-[m,k] Im Z|^2)]. *)
Theorem unfolded_intensity_computes_the_formula
    rho plus minus kap P t p f n ks ms :
  rho kappa_s = Some kap ->
  binds_intensity rho plus minus P t p f ks ms ->
  eval sph_harm rho (doit (intensity n ks ms))
  = Ok (intensity_value sph_harm plus minus kap P t p f n ks ms).
Proof. apply eval_intensity. Qed.

(** Multiplying every amplitude coefficient by the same complex number [c]
    multiplies the intensity by [|c|^2]; a common phase [exp(i alpha)] of all
    coefficients does not change it. *)
Theorem common_factor_of_the_amplitudes
    (sc : string -> C) (x y : Z -> Z -> C) (c : C) (alpha : R) n ks ms :
  eval sph_harm
    (family_env sc (fun mv kv => Cmul c (x mv kv)) (fun mv kv => Cmul c (y mv kv)))
    (doit (intensity n ks ms))
  = v <- eval sph_harm (family_env sc x y) (doit (intensity n ks ms)) ;;
    Ok (Cmul (abs_sq c) v) /\
  eval sph_harm
    (family_env sc (fun mv kv => Cmul (Cexp (Cmul (RtoC alpha) Ci)) (x mv kv))
                   (fun mv kv => Cmul (Cexp (Cmul (RtoC alpha) Ci)) (y mv kv)))
    (doit (intensity n ks ms))
  = eval sph_harm (family_env sc x y) (doit (intensity n ks ms)) /\
  exists v, eval sph_harm (family_env sc x y) (doit (intensity n ks ms)) = Ok v.
Proof.
  assert (Hev : forall a b,
             eval sph_harm (family_env sc a b) (doit (intensity n ks ms))
             = Ok (intensity_value sph_harm a b (sc "kappa"%string)
                     (sc "P_gamma"%string) (sc "theta"%string)
                     (sc "phi"%string) (sc "Phi"%string) n ks ms)).
  { intros a b. apply eval_intensity; [reflexivity | apply binds_family_env]. }
  rewrite !Hev. cbn [bind]. split; [|split].
  - now rewrite intensity_value_scale.
  - now rewrite intensity_value_scale, abs_sq_unit_phase, Cmul_one_l.
  - now eexists.
Qed.

End IntensityValue.

Lemma unfolded_intensity_computes_the_formula_witness :
  family_env (fun _ => RtoC 1) (fun _ _ => Ci) (fun _ _ => RtoC 1) kappa_s
  = Some (RtoC 1) /\
  eval sph_harm_2 (family_env (fun _ => RtoC 1) (fun _ _ => Ci) (fun _ _ => RtoC 1))
    (doit intensity_expr)
  = Ok (intensity_value sph_harm_2 (fun _ _ => Ci) (fun _ _ => RtoC 1)
          (RtoC 1) (RtoC 1) (RtoC 1) (RtoC 1) (RtoC 1) max_l k_values m_range).
Proof.
  split; [reflexivity|].
  apply (unfolded_intensity_computes_the_formula sph_harm_2
           (family_env (fun _ => RtoC 1) (fun _ _ => Ci) (fun _ _ => RtoC 1))
           (fun _ _ => Ci) (fun _ _ => RtoC 1)
           (RtoC 1) (RtoC 1) (RtoC 1) (RtoC 1) (RtoC 1) max_l k_values m_range).
  - reflexivity.
  - apply (binds_family_env (fun _ => RtoC 1)).
Defined.

(** ** The analytic substitution *)

Lemma rule_app b1 b2 s :
  rule (b1 ++ b2) s = match rule b1 s with Some v => Some v | None => rule b2 s end.
Proof.
  induction b1 as [|[key v] b1 IH]; simpl; [reflexivity|].
  destruct (symb_eq_dec s key); [reflexivity | exact IH].
Qed.

Lemma rule_Some_In b s v : rule b s = Some v -> In (s, v) b.
Proof.
  induction b as [|[key v'] b IH]; simpl; [discriminate|].
  destruct (symb_eq_dec s key) as [->|_]; [intros [= ->]; now left|].
  intro H. right. now apply IH.
Qed.

Lemma rule_not_a_key b s : ~ In s (map fst b) -> rule b s = None.
Proof.
  induction b as [|[key v] b IH]; simpl; intro H; [reflexivity|].
  destruct (symb_eq_dec s key) as [->|_]; [exfalso; auto | apply IH; tauto].
Qed.

Lemma rule_constant b s v :
  (forall kv, In kv b -> snd kv = v) -> In s (map fst b) -> rule b s = Some v.
Proof.
  induction b as [|[key v'] b IH]; simpl; intros Hv Hin; [contradiction|].
  destruct (symb_eq_dec s key) as [->|Hne].
  - f_equal. exact (Hv (key, v') (or_introl eq_refl)).
  - apply IH; [intros kv Hkv; apply Hv; now right|].
    destruct Hin; congruence.
Qed.

Lemma In_family_defaults A v ks ms kv' :
  In kv' (family_defaults A v ks ms) <->
  exists mv kv, In mv ms /\ In kv ks /\ kv' = (IdxS A (IVal mv) (IVal kv), v).
Proof.
  unfold family_defaults. rewrite in_flat_map. split.
  - intros [kv [Hkv H]]. apply in_map_iff in H. destruct H as [mv [<- Hmv]].
    eauto.
  - intros (mv & kv & Hmv & Hkv & ->). exists kv. split; [exact Hkv|].
    apply in_map_iff. eauto.
Qed.

Lemma rule_family_defaults A v ks ms mv kv :
  In mv ms -> In kv ks ->
  rule (family_defaults A v ks ms) (IdxS A (IVal mv) (IVal kv)) = Some v.
Proof.
  intros Hmv Hkv. apply rule_constant.
  - intros kv' H. apply In_family_defaults in H.
    now destruct H as (? & ? & _ & _ & ->).
  - apply in_map_iff. exists (IdxS A (IVal mv) (IVal kv), v). split; [reflexivity|].
    apply In_family_defaults. eauto.
Qed.

Lemma rule_family_defaults_other A v ks ms s :
  (forall mv kv, s <> IdxS A (IVal mv) (IVal kv)) ->
  rule (family_defaults A v ks ms) s = None.
Proof.
  intro Hs. apply rule_not_a_key. intro H. apply in_map_iff in H.
  destruct H as [kv' [<- H]]. apply In_family_defaults in H.
  destruct H as (mv & kv & _ & _ & ->). now apply (Hs mv kv).
Qed.

Lemma rule_parameter_defaults_plain ks ms name :
  name <> "P_gamma"%string -> name <> "kappa"%string ->
  rule (parameter_defaults_of ks ms) (SymS name) = None.
Proof.
  intros H1 H2. unfold parameter_defaults_of. cbn [rule].
  destruct (symb_eq_dec (SymS name) Py_s) as [[= ->]|_]; [congruence|].
  destruct (symb_eq_dec (SymS name) kappa_s) as [[= ->]|_]; [congruence|].
  rewrite rule_app, !rule_family_defaults_other by discriminate. reflexivity.
Qed.

Lemma rule_parameter_defaults_values ks ms s v :
  rule (parameter_defaults_of ks ms) s = Some v ->
  v = Int 1 \/ v = Pi \/ v = Int 0.
Proof.
  unfold parameter_defaults_of. cbn [rule].
  destruct (symb_eq_dec s Py_s); [intros [= <-]; auto|].
  destruct (symb_eq_dec s kappa_s); [intros [= <-]; auto|].
  rewrite rule_app.
  assert (Hfam : forall A w, rule (family_defaults A w ks ms) s = Some v -> v = w).
  { intros A w Hr. apply rule_Some_In, In_family_defaults in Hr.
    now destruct Hr as (? & ? & _ & _ & [= _ ->]). }
  destruct (rule (family_defaults lp (Int 0) ks ms) s) eqn:E.
  - intros [= <-]. apply Hfam in E. auto.
  - intro H. apply Hfam in H. auto.
Qed.

Section Substituted.

Variable sph_harm : Z -> Z -> C -> C -> C.

Lemma Csum_constant {A : Type} (v : C) (xs : list A) :
  Csum (map (fun _ => v) xs) = Cmul (RtoC (INR (List.length xs))) v.
Proof.
  induction xs as [|x xs IH].
  - destruct v. unfold Csum, Cmul, RtoC. simpl. f_equal; ring.
  - cbn [map Csum fold_right List.length]. fold (Csum (map (fun _ : A => v) xs)).
    rewrite IH, S_INR. destruct v. unfold Cadd, Cmul, RtoC. simpl. f_equal; ring.
Qed.

Lemma wave_value_zero part n ms t p f :
  wave_value sph_harm (fun _ => RtoC 0) part n ms t p f = RtoC 0.
Proof.
  unfold wave_value.
  replace (map (fun mv => Cprod [RtoC 0; part (Znm_value sph_harm n mv t p f)]) ms)
    with (map (fun _ : Z => RtoC 0) ms).
  - rewrite Csum_constant. unfold Cmul, RtoC. simpl. f_equal; ring.
  - apply map_ext. intro mv. destruct (part (Znm_value sph_harm n mv t p f)).
    unfold Cprod, Cmul, RtoC. simpl. f_equal; ring.
Qed.

Lemma wave_value_one n ms t p f :
  wave_value sph_harm (fun _ => RtoC 1) Cimag n ms t p f
  = Csum (map (fun mv => Cimag (Znm_value sph_harm n mv t p f)) ms).
Proof.
  unfold wave_value. f_equal. apply map_ext. intro mv.
  unfold Cprod, Cimag, Cmul, RtoC. simpl. f_equal; ring.
Qed.

Lemma intensity_value_defaults t p f n ks ms :
  intensity_value sph_harm (fun _ _ => RtoC 0) (fun _ _ => RtoC 1)
    (RtoC PI) (RtoC 1) t p f n ks ms
  = Cmul (RtoC (4 * PI * INR (List.length ks)))
      (abs_sq (Csum (map (fun mv => Cimag (Znm_value sph_harm n mv t p f)) ms))).
Proof.
  unfold intensity_value.
  replace (map (flip_value sph_harm (fun _ _ => RtoC 0) (fun _ _ => RtoC 1)
                  (RtoC 1) t p f n ms) ks)
    with (map (fun _ : Z =>
                 Cmul (RtoC 2)
                   (abs_sq (Csum (map (fun mv => Cimag (Znm_value sph_harm n mv t p f))
                                      ms)))) ks).
  - rewrite Csum_constant.
    destruct (Csum (map (fun mv => Cimag (Znm_value sph_harm n mv t p f)) ms))
      as [s1 s2].
    rewrite abs_sq_pair. unfold Cprod, Cmul, RtoC. simpl. f_equal; ring.
  - apply map_ext. intro kv. unfold flip_value.
    rewrite !wave_value_zero, wave_value_one.
    destruct (Csum (map (fun mv => Cimag (Znm_value sph_harm n mv t p f)) ms))
      as [s1 s2].
    destruct (wave_value sph_harm (fun _ => RtoC 1) Creal n ms t p f) as [w1 w2].
    unfold RtoC. rewrite !abs_sq_pair.
    unfold Csum, Cprod, Cadd, Cmul, RtoC. simpl. f_equal; ring.
Qed.

(** The substituted intensity of the analytic-substitution cell depends on
    the three angles only: where they have values, its value is
    [4 pi |k_values| (sum_m Im Z_n^m)^2], whatever else the environment
    holds. *)
Theorem substituted_intensity_depends_on_the_angles
    (rho : env) (t p f : C) n ks ms :
  rho theta_s = Some t -> rho phi_s = Some p -> rho Phi_s = Some f ->
  eval sph_harm rho (substituted_expr_of n ks ms)
  = Ok (Cmul (RtoC (4 * PI * INR (List.length ks)))
          (abs_sq (Csum (map (fun mv => Cimag (Znm_value sph_harm n mv t p f)) ms)))).
Proof.
  intros Ht Hp Hf. unfold substituted_expr_of.
  rewrite eval_xreplace.
  - rewrite <- intensity_value_defaults.
    apply eval_intensity.
    + unfold bound_env, parameter_defaults_of. cbn [rule].
      destruct (symb_eq_dec kappa_s Py_s); [discriminate|].
      destruct (symb_eq_dec kappa_s kappa_s); [reflexivity | congruence].
    + unfold binds_intensity.
      assert (Hplain : forall name c,
                 name <> "P_gamma"%string -> name <> "kappa"%string ->
                 rho (SymS name) = Some c ->
                 bound_env sph_harm rho (parameter_defaults_of ks ms) (SymS name)
                 = Some c).
      { intros name c H1 H2 Hc. unfold bound_env.
        now rewrite rule_parameter_defaults_plain. }
      split.
      { unfold bound_env, parameter_defaults_of. cbn [rule].
        destruct (symb_eq_dec Py_s Py_s); [reflexivity | congruence]. }
      split; [apply Hplain; [discriminate | discriminate | exact Ht]|].
      split; [apply Hplain; [discriminate | discriminate | exact Hp]|].
      split; [apply Hplain; [discriminate | discriminate | exact Hf]|].
      intros mv kv Hmv Hkv. unfold bound_env, parameter_defaults_of. cbn [rule].
      split.
      * destruct (symb_eq_dec (IdxS lp (IVal mv) (IVal kv)) Py_s); [discriminate|].
        destruct (symb_eq_dec (IdxS lp (IVal mv) (IVal kv)) kappa_s); [discriminate|].
        now rewrite rule_app, rule_family_defaults.
      * destruct (symb_eq_dec (IdxS lm (IVal mv) (IVal kv)) Py_s); [discriminate|].
        destruct (symb_eq_dec (IdxS lm (IVal mv) (IVal kv)) kappa_s); [discriminate|].
        rewrite rule_app, rule_family_defaults_other by discriminate.
        now rewrite rule_family_defaults.
  - intros s v Hr. apply rule_parameter_defaults_values in Hr.
    destruct Hr as [-> | [-> | ->]]; simpl; now eexists.
Qed.

End Substituted.

Lemma substituted_intensity_depends_on_the_angles_witness :
  positional [theta_s; phi_s; Phi_s] [RtoC (PI / 2); RtoC 0; RtoC 0] theta_s
  = Some (RtoC (PI / 2)) /\
  substituted_expr = substituted_expr_of max_l k_values m_range /\
  eval sph_harm_2
    (positional [theta_s; phi_s; Phi_s] [RtoC (PI / 2); RtoC 0; RtoC 0])
    substituted_expr
  = Ok (Cmul (RtoC (4 * PI * INR 1))
          (abs_sq (Csum (map (fun mv => Cimag (Znm_value sph_harm_2 2 mv
                                                  (RtoC (PI / 2)) (RtoC 0) (RtoC 0)))
                             m_range)))).
Proof.
  split; [reflexivity|]. split; [reflexivity|].
  exact (substituted_intensity_depends_on_the_angles sph_harm_2
           (positional [theta_s; phi_s; Phi_s] [RtoC (PI / 2); RtoC 0; RtoC 0])
           (RtoC (PI / 2)) (RtoC 0) (RtoC 0) max_l k_values m_range
           eq_refl eq_refl eq_refl).
Defined.

(** ** Strings *)

Lemma string_append_assoc (a b c : string) :
  ((a ++ b) ++ c)%string = (a ++ (b ++ c))%string.
Proof. induction a as [|x a IH]; simpl; [reflexivity | now rewrite IH]. Qed.

Lemma string_length_append (a b : string) :
  String.length (a ++ b) = (String.length a + String.length b)%nat.
Proof. induction a as [|x a IH]; simpl; [reflexivity | now rewrite IH]. Qed.

(** Two strings with suffixes of the same length are equal only if the
    suffixes and what precedes them are equal. *)
Lemma string_append_inv (a : string) : forall b t u,
  String.length t = String.length u ->
  (a ++ t)%string = (b ++ u)%string -> a = b /\ t = u.
Proof.
  induction a as [|x a IH]; intros [|y b] t u Hlen Heq; simpl in Heq.
  - now split.
  - exfalso. apply (f_equal String.length) in Heq. simpl in Heq.
    rewrite string_length_append in Heq. lia.
  - exfalso. apply (f_equal String.length) in Heq. simpl in Heq.
    rewrite string_length_append in Heq. lia.
  - injection Heq as -> Heq. destruct (IH b t u Hlen Heq) as [-> ->]. now split.
Qed.

Lemma substring_append_prefix (a t : string) :
  String.substring 0 (String.length a) (a ++ t) = a.
Proof.
  induction a as [|x a IH]; simpl; [now destruct t | now rewrite IH].
Qed.

Lemma substring_append_skip (a t : string) n j :
  String.substring (String.length a + n) j (a ++ t) = String.substring n j t.
Proof. induction a as [|x a IH]; simpl; [reflexivity | exact IH]. Qed.

Lemma endswith_append (a t suf : string) :
  (String.length suf <= String.length t)%nat ->
  endswith (a ++ t) suf = endswith t suf.
Proof.
  intro Hle. unfold endswith. rewrite string_length_append.
  replace (String.length a + String.length t - String.length suf)%nat
    with (String.length a + (String.length t - String.length suf))%nat by lia.
  rewrite substring_append_skip.
  replace (Nat.leb (String.length suf) (String.length a + String.length t)) with true
    by (symmetry; apply Nat.leb_le; lia).
  replace (Nat.leb (String.length suf) (String.length t)) with true
    by (symmetry; apply Nat.leb_le; lia).
  reflexivity.
Qed.

Lemma drop_last_mag (a : string) : drop_last 4 (a ++ "_mag") = a.
Proof.
  unfold drop_last. rewrite string_length_append. simpl String.length.
  replace (String.length a + 4 - 4)%nat with (String.length a) by lia.
  apply substring_append_prefix.
Qed.

Lemma mag_is_not_phi (a b : string) : (a ++ "_mag")%string <> (b ++ "_phi")%string.
Proof.
  intro H. apply string_append_inv in H; [|reflexivity]. now destruct H.
Qed.

Lemma mag_injective (a b : string) : (a ++ "_mag")%string = (b ++ "_mag")%string -> a = b.
Proof. intro H. now apply string_append_inv in H. Qed.

Lemma phi_injective (a b : string) : (a ++ "_phi")%string = (b ++ "_phi")%string -> a = b.
Proof. intro H. now apply string_append_inv in H. Qed.

Lemma not_a_scalar_key (a suf : string) :
  suf = "_mag"%string \/ suf = "_phi"%string ->
  (a ++ suf)%string <> "Phi_val"%string /\ (a ++ suf)%string <> "Py_val"%string.
Proof.
  intros Hsuf. split; intro H.
  - change "Phi_val"%string with ("Phi" ++ "_val")%string in H.
    apply string_append_inv in H; [|now destruct Hsuf as [-> | ->]].
    destruct H as [_ H]. destruct Hsuf as [-> | ->]; discriminate.
  - change "Py_val"%string with ("Py" ++ "_val")%string in H.
    apply string_append_inv in H; [|now destruct Hsuf as [-> | ->]].
    destruct H as [_ H]. destruct Hsuf as [-> | ->]; discriminate.
Qed.

(** ** The sliders *)

Lemma dict_set_Forall {A : Type} (P : string * A -> Prop) key v d :
  P (key, v) -> Forall P d -> Forall P (dict_set key v d).
Proof.
  intros Hv. induction 1 as [|[key' v'] d Hk Hd IH]; simpl.
  - now repeat constructor.
  - destruct (String.eqb key key'); constructor; auto.
Qed.

Lemma add_amplitude_sliders_Forall (P : string * FloatSlider -> Prop) syms :
  (forall name, P ((name ++ "_mag")%string, magnitude_slider name)) ->
  (forall name, P ((name ++ "_phi")%string, phase_slider)) ->
  forall d, Forall P d -> Forall P (add_amplitude_sliders syms d).
Proof.
  intros Hmag Hphi. induction syms as [|s syms IH]; intros d Hd; simpl; [exact Hd|].
  destruct (negb (isinstance_Indexed s)); [now apply IH|].
  destruct (negb (startswith (str_symb s) "[l]")); [now apply IH|].
  apply IH. apply dict_set_Forall; [apply Hphi|].
  apply dict_set_Forall; [apply Hmag | exact Hd].
Qed.

(** Whatever the symbols are, every slider that the notebook creates has the
    lower bound 0 and starts at a value inside its range. *)
Theorem sliders_start_inside_their_range (syms : list symb) :
  Forall (fun kv => slider_min (snd kv) = 0 /\ in_range (snd kv)) (sliders_of syms).
Proof.
  unfold sliders_of. apply add_amplitude_sliders_Forall.
  - intro name. unfold in_range, magnitude_slider. cbn [snd slider_min slider_max slider_value].
    destruct (contains_char _ name); split; auto; lra.
  - intro name. unfold in_range. simpl. unfold default_value. split; auto; lra.
  - unfold scalar_sliders, in_range, default_step.
    pose proof PI2_1. repeat constructor; simpl; lra.
Qed.

Lemma dict_set_fresh {A : Type} key (v : A) d :
  ~ In key (map fst d) -> dict_set key v d = d ++ [(key, v)].
Proof.
  induction d as [|[key' v'] d IH]; simpl; intro H; [reflexivity|].
  destruct (String.eqb_spec key key') as [->|_]; [exfalso; auto|].
  rewrite IH by tauto. reflexivity.
Qed.

Lemma add_amplitude_sliders_fresh syms : forall d,
  NoDup (map str_symb (filter is_amplitude syms)) ->
  (forall s suf, In s (filter is_amplitude syms) ->
                 suf = "_mag"%string \/ suf = "_phi"%string ->
                 ~ In (str_symb s ++ suf)%string (map fst d)) ->
  add_amplitude_sliders syms d
  = d ++ flat_map amplitude_sliders (filter is_amplitude syms).
Proof.
  induction syms as [|s syms IH]; intros d Hnd Hfresh; simpl;
    [now rewrite app_nil_r|].
  cbn [filter] in Hnd, Hfresh |- *.
  destruct (is_amplitude s) eqn:Eamp; unfold is_amplitude in Eamp;
    destruct (isinstance_Indexed s); try discriminate;
    destruct (startswith (str_symb s) "[l]"); try discriminate;
    cbn [negb]; try (now apply IH).
  cbn [map] in Hnd. apply NoDup_cons_iff in Hnd. destruct Hnd as [Hs Hnd].
  rewrite (dict_set_fresh (str_symb s ++ "_mag")%string)
    by (apply Hfresh; [now left | now left]).
  rewrite (dict_set_fresh (str_symb s ++ "_phi")%string).
  - rewrite IH; [now rewrite <- !app_assoc | exact Hnd |].
    intros s2 suf Hs2 Hsuf. rewrite !map_app, !in_app_iff. cbn [map fst In].
    intros [[H|[H|[]]]|[H|[]]].
    + apply (Hfresh s2 suf); [now right | exact Hsuf | exact H].
    + destruct Hsuf as [-> | ->];
        [apply mag_injective in H | now apply mag_is_not_phi in H].
      apply Hs. rewrite H. now apply in_map.
    + destruct Hsuf as [-> | ->];
        [symmetry in H; now apply mag_is_not_phi in H | apply phi_injective in H].
      apply Hs. rewrite H. now apply in_map.
  - rewrite map_app, in_app_iff. cbn [map fst In].
    intros [H|[H|[]]].
    + apply (Hfresh s "_phi"%string); [now left | now right | exact H].
    + now apply mag_is_not_phi in H.
Qed.

(** For symbols with distinct printed names the slider dictionary is the two
    scalar sliders followed, for every indexed symbol whose name starts with
    "[l]" and in the order of the symbols, by its magnitude slider and its
    phase slider; its keys are those that [plot] receives. *)
Theorem sliders_follow_the_symbols (syms : list symb) Phi_val Py_val mag phase :
  NoDup (map str_symb (filter is_amplitude syms)) ->
  sliders_of syms
  = scalar_sliders ++ flat_map amplitude_sliders (filter is_amplitude syms) /\
  map fst (sliders_of syms)
  = map fst (controls_of (filter is_amplitude syms) Phi_val Py_val mag phase).
Proof.
  intro Hnd.
  assert (Heq : sliders_of syms
                = scalar_sliders
                    ++ flat_map amplitude_sliders (filter is_amplitude syms)).
  { unfold sliders_of. apply add_amplitude_sliders_fresh; [exact Hnd|].
    intros s suf _ Hsuf. cbn [scalar_sliders map fst In].
    destruct (not_a_scalar_key (str_symb s) suf Hsuf) as [H1 H2].
    intros [H|[H|[]]]; auto. }
  split; [exact Heq|]. rewrite Heq. unfold controls_of.
  cbn [scalar_sliders app map fst]. do 2 f_equal.
  clear Heq Hnd.
  induction (filter is_amplitude syms) as [|s rest IH]; [reflexivity|].
  cbn [flat_map amplitude_sliders app map fst]. now rewrite IH.
Qed.

Lemma sliders_follow_the_symbols_witness :
  NoDup (map str_symb (filter is_amplitude free_symbols_nb)) /\
  filter is_amplitude free_symbols_nb = amp_symbols /\
  sliders = scalar_sliders ++ flat_map amplitude_sliders amp_symbols.
Proof.
  assert (Hnd : NoDup (map str_symb (filter is_amplitude free_symbols_nb))).
  { change (map str_symb (filter is_amplitude free_symbols_nb))
      with (nodup string_dec (map str_symb (filter is_amplitude free_symbols_nb))).
    apply NoDup_nodup. }
  split; [exact Hnd|]. split; [reflexivity|].
  exact (proj1 (sliders_follow_the_symbols free_symbols_nb 0 0
                  (fun _ => 0) (fun _ => 0) Hnd)).
Defined.

(** ** What [plot] passes on *)

Lemma endswith_mag (a : string) : endswith (a ++ "_mag") "mag" = true.
Proof. rewrite endswith_append by (simpl; lia). reflexivity. Qed.

Lemma endswith_phi (a : string) : endswith (a ++ "_phi") "mag" = false.
Proof. rewrite endswith_append by (simpl; lia). reflexivity. Qed.

Lemma mag_phase_of_controls syms Phi_val Py_val mag phase :
  mag_phase_of (controls_of syms Phi_val Py_val mag phase)
  = flat_map (fun s => [((str_symb s ++ "_mag")%string, mag s);
                        ((str_symb s ++ "_phi")%string, phase s)]) syms.
Proof.
  unfold mag_phase_of, controls_of. cbn [filter fst String.eqb Ascii.eqb Bool.eqb negb andb].
  induction syms as [|s syms IH]; [reflexivity|].
  cbn [flat_map app filter fst].
  destruct (not_a_scalar_key (str_symb s) "_mag" (or_introl eq_refl)) as [H1 H2].
  destruct (not_a_scalar_key (str_symb s) "_phi" (or_intror eq_refl)) as [H3 H4].
  apply String.eqb_neq in H1, H2, H3, H4. rewrite H1, H2, H3, H4.
  cbn [negb andb]. now rewrite IH.
Qed.

Lemma dict_get_phase syms (mag phase : symb -> R) s :
  NoDup (map str_symb syms) -> In s syms ->
  dict_get (str_symb s ++ "_phi")
    (flat_map (fun s => [((str_symb s ++ "_mag")%string, mag s);
                         ((str_symb s ++ "_phi")%string, phase s)]) syms)
  = Some (phase s).
Proof.
  induction syms as [|s0 syms IH]; intros Hnd Hin; [contradiction|].
  cbn [map] in Hnd. apply NoDup_cons_iff in Hnd. destruct Hnd as [Hs0 Hnd].
  cbn [flat_map app dict_get].
  destruct (String.eqb_spec (str_symb s ++ "_phi") (str_symb s0 ++ "_mag")) as [E|_];
    [symmetry in E; now apply mag_is_not_phi in E|].
  destruct (String.eqb_spec (str_symb s ++ "_phi") (str_symb s0 ++ "_phi")) as [E|E].
  - apply phi_injective in E. destruct Hin as [-> | Hin]; [reflexivity|].
    exfalso. apply Hs0. rewrite <- E. now apply in_map.
  - destruct Hin as [-> | Hin]; [congruence | now apply IH].
Qed.

Lemma amplitudes_from_symbols (mag phase : symb -> R) mp syms :
  (forall s, In s syms -> dict_get (str_symb s ++ "_phi") mp = Some (phase s)) ->
  amplitudes_from
    (flat_map (fun s => [((str_symb s ++ "_mag")%string, mag s);
                         ((str_symb s ++ "_phi")%string, phase s)]) syms) mp
  = Ok (map (fun s => polar (mag s) (phase s)) syms).
Proof.
  induction syms as [|s syms IH]; intro Hget; [reflexivity|].
  cbn [flat_map app amplitudes_from map].
  rewrite endswith_mag, drop_last_mag, (Hget s (or_introl eq_refl)), endswith_phi.
  rewrite IH by (intros s2 Hs2; apply Hget; now right). reflexivity.
Qed.

Lemma plot_arguments_of_controls syms th ph Phi_val Py_val mag phase :
  NoDup (map str_symb syms) ->
  plot_arguments th ph (controls_of syms Phi_val Py_val mag phase)
  = Ok (RtoC th :: RtoC ph :: RtoC Phi_val :: RtoC Py_val
          :: map (fun s => polar (mag s) (phase s)) syms).
Proof.
  intro Hnd. unfold plot_arguments.
  rewrite mag_phase_of_controls. unfold amplitudes.
  rewrite amplitudes_from_symbols
    by (intros s Hs; now apply dict_get_phase).
  reflexivity.
Qed.

(** For symbols with distinct printed names [plot] hands to the compiled
    function the point, the values of the two scalar sliders and then, for
    every symbol in order, the magnitude of its slider times [exp(i * phase)]
    of its own phase slider: no amplitude is paired with the phase of
    another. *)
Theorem plot_pairs_each_magnitude_with_its_phase
    (syms : list symb) (th ph Phi_val Py_val : R) (mag phase : symb -> R) :
  NoDup (map str_symb syms) ->
  plot_arguments th ph (controls_of syms Phi_val Py_val mag phase)
  = Ok (RtoC th :: RtoC ph :: RtoC Phi_val :: RtoC Py_val
          :: map (fun s => polar (mag s) (phase s)) syms).
Proof. apply plot_arguments_of_controls. Qed.

Lemma plot_pairs_each_magnitude_with_its_phase_witness :
  NoDup (map str_symb amp_symbols) /\
  plot_arguments 0 0 (controls_of amp_symbols 1 1 (fun _ => 1) (fun _ => 0))
  = Ok (RtoC 0 :: RtoC 0 :: RtoC 1 :: RtoC 1
          :: map (fun _ => polar 1 0) amp_symbols).
Proof.
  assert (Hnd : NoDup (map str_symb amp_symbols)).
  { change (map str_symb amp_symbols)
      with (nodup string_dec (map str_symb amp_symbols)).
    apply NoDup_nodup. }
  split; [exact Hnd|].
  exact (plot_pairs_each_magnitude_with_its_phase amp_symbols 0 0 1 1
           (fun _ => 1) (fun _ => 0) Hnd).
Defined.

Lemma amplitudes_from_missing_phase mp items :
  (exists key mag, In (key, mag) items /\ endswith key "mag" = true /\
                   dict_get (drop_last 4 key ++ "_phi") mp = None) ->
  exists key, endswith key "mag" = true /\
              dict_get (drop_last 4 key ++ "_phi") mp = None /\
              amplitudes_from items mp
              = Err (KeyError (drop_last 4 key ++ "_phi")).
Proof.
  induction items as [|[key0 mag0] items IH]; intros (key & mag & Hin & Hend & Hnone);
    [contradiction|].
  cbn [amplitudes_from].
  destruct (endswith key0 "mag") eqn:E0.
  - destruct (dict_get (drop_last 4 key0 ++ "_phi") mp) as [ph|] eqn:E1.
    + destruct Hin as [[= <- <-] | Hin]; [congruence|].
      destruct IH as (key' & H1 & H2 & H3); [eauto|].
      exists key'. rewrite H3. auto.
    + exists key0. auto.
  - destruct Hin as [[= <- <-] | Hin]; [congruence|].
    apply IH. eauto.
Qed.

(** [plot] needs both scalar sliders and, for every key that ends in "mag", the
    phase key made from it: without [Phi_val] or [Py_val] the call is a
    [TypeError], and a magnitude without its phase is a [KeyError] for the
    missing phase key. *)
Theorem plot_fails_on_missing_controls
    (th ph : R) (c : controls) (key : string) (mag : R) :
  In (key, mag) (mag_phase_of c) ->
  endswith key "mag" = true ->
  dict_get (drop_last 4 key ++ "_phi") (mag_phase_of c) = None ->
  (dict_get "Phi_val" c = None \/ dict_get "Py_val" c = None ->
   plot_arguments th ph c = Err TypeError) /\
  (dict_get "Phi_val" c <> None -> dict_get "Py_val" c <> None ->
   exists missing,
     dict_get missing (mag_phase_of c) = None /\
     plot_arguments th ph c = Err (KeyError missing)).
Proof.
  intros Hin Hend Hnone. unfold plot_arguments. split.
  - intros [-> | H]; [reflexivity|].
    rewrite H. now destruct (dict_get "Phi_val" c).
  - intros H1 H2.
    destruct (dict_get "Phi_val" c); [|congruence].
    destruct (dict_get "Py_val" c); [|congruence].
    destruct (amplitudes_from_missing_phase (mag_phase_of c) (mag_phase_of c))
      as (key' & _ & Hmiss & Herr); [eauto|].
    exists (drop_last 4 key' ++ "_phi")%string. split; [exact Hmiss|].
    unfold amplitudes. now rewrite Herr.
Qed.

Lemma plot_fails_on_missing_controls_witness :
  In ("x_mag"%string, 1)
     (mag_phase_of [("Phi_val"%string, 1); ("Py_val"%string, 1); ("x_mag"%string, 1)]) /\
  endswith "x_mag" "mag" = true /\
  dict_get (drop_last 4 "x_mag" ++ "_phi")
    (mag_phase_of [("Phi_val"%string, 1); ("Py_val"%string, 1); ("x_mag"%string, 1)])
  = None /\
  exists missing,
    plot_arguments 0 0 [("Phi_val"%string, 1); ("Py_val"%string, 1); ("x_mag"%string, 1)]
    = Err (KeyError missing).
Proof.
  split; [now left|]. split; [reflexivity|]. split; [reflexivity|].
  destruct (plot_fails_on_missing_controls 0 0
              [("Phi_val"%string, 1); ("Py_val"%string, 1); ("x_mag"%string, 1)]
              "x_mag" 1 (or_introl eq_refl) eq_refl eq_refl) as [_ H].
  destruct H as (missing & _ & Herr); [discriminate | discriminate |].
  exists missing. exact Herr.
Defined.

(** ** The strings of the grouping loop *)

Lemma rstrip_keeps_prefix (chars a t : string) :
  rstrip chars t <> EmptyString ->
  rstrip chars (a ++ t) = (a ++ rstrip chars t)%string.
Proof.
  intro Ht. induction a as [|c a IH]; [reflexivity|].
  cbn [String.append rstrip]. rewrite IH.
  destruct (a ++ rstrip chars t)%string eqn:E; [|reflexivity].
  exfalso. destruct a; [now apply Ht | discriminate].
Qed.

Lemma rstrip_bracket (a : string) :
  rstrip "_mag" (a ++ "]" ++ "_mag") = (a ++ "]")%string.
Proof. now rewrite rstrip_keeps_prefix. Qed.

Lemma substring_full (r : string) : String.substring 0 (String.length r) r = r.
Proof. induction r as [|c r IH]; simpl; [reflexivity | now rewrite IH]. Qed.

Lemma amplitude_name_ends_with_bracket A i j :
  str_symb (IdxS A i j)
  = ((A ++ "[" ++ str_index i ++ ", " ++ str_index j) ++ "]")%string.
Proof.
  cbn [str_symb]. now rewrite !string_append_assoc.
Qed.

Lemma grouping_strings A sign i j :
  (A = lp /\ sign = "+"%char) \/ (A = lm /\ sign = "-"%char) ->
  let name := str_symb (IdxS A i j) in
  is_magnitude_key (name ++ "_mag") = true /\
  is_magnitude_key (name ++ "_phi") = false /\
  l_str_of (name ++ "_mag") = name /\
  sign_of name = Some sign /\
  indices_text name = ("[" ++ str_index i ++ ", " ++ str_index j ++ "]")%string.
Proof.
  intros HA name.
  assert (Hstart : exists rest, name = String "["%char rest).
  { destruct HA as [[-> _] | [-> _]]; eexists; reflexivity. }
  split; [|split; [|split; [|split]]].
  - unfold is_magnitude_key. rewrite endswith_append by (simpl; lia).
    destruct HA as [[-> _] | [-> _]]; reflexivity.
  - unfold is_magnitude_key. rewrite endswith_append by (simpl; lia).
    apply andb_false_r.
  - unfold l_str_of, strip. subst name.
    rewrite amplitude_name_ends_with_bracket, string_append_assoc.
    rewrite rstrip_bracket.
    rewrite <- amplitude_name_ends_with_bracket.
    destruct Hstart as [rest ->]. reflexivity.
  - destruct HA as [[-> ->] | [-> ->]]; reflexivity.
  - unfold indices_text. subst name. cbn [str_symb].
    generalize ("[" ++ str_index i ++ ", " ++ str_index j ++ "]")%string as rest.
    intro rest.
    destruct HA as [[-> _] | [-> _]];
      cbn [lp lm String.append String.length Nat.sub String.substring];
      rewrite Nat.sub_0_r; apply substring_full.
Qed.

(** The grouping loop recovers from the key of a magnitude slider what it
    needs: for a coefficient of either family the key passes the loop's test
    and the key of the phase slider does not, [key.strip("_mag")] is the name
    of the coefficient, its character 6 is the sign of the family, and the
    text from character 9 on is the printed list of the two indices. *)
Theorem grouping_loop_recovers_name_sign_and_indices (i j : index) :
  (is_magnitude_key (str_symb (IdxS lp i j) ++ "_mag") = true /\
   is_magnitude_key (str_symb (IdxS lp i j) ++ "_phi") = false /\
   l_str_of (str_symb (IdxS lp i j) ++ "_mag") = str_symb (IdxS lp i j) /\
   sign_of (str_symb (IdxS lp i j)) = Some "+"%char /\
   indices_text (str_symb (IdxS lp i j))
   = ("[" ++ str_index i ++ ", " ++ str_index j ++ "]")%string) /\
  (is_magnitude_key (str_symb (IdxS lm i j) ++ "_mag") = true /\
   is_magnitude_key (str_symb (IdxS lm i j) ++ "_phi") = false /\
   l_str_of (str_symb (IdxS lm i j) ++ "_mag") = str_symb (IdxS lm i j) /\
   sign_of (str_symb (IdxS lm i j)) = Some "-"%char /\
   indices_text (str_symb (IdxS lm i j))
   = ("[" ++ str_index i ++ ", " ++ str_index j ++ "]")%string).
Proof.
  split.
  - apply (grouping_strings lp "+"%char i j). now left.
  - apply (grouping_strings lm "-"%char i j). now right.
Qed.

(** ** The grid *)

Lemma linspace_length start stop num : List.length (linspace start stop num) = num.
Proof. unfold linspace. now rewrite length_map, length_seq. Qed.

Lemma linspace_bounds start stop num :
  (2 <= num)%nat -> start <= stop ->
  Forall (fun x => start <= x <= stop) (linspace start stop num).
Proof.
  intros Hnum Hle. unfold linspace. apply Forall_forall. intros x Hx.
  apply in_map_iff in Hx. destruct Hx as [i [<- Hi]]. apply in_seq in Hi.
  assert (HN : 0 < INR (num - 1)) by (apply lt_0_INR; lia).
  assert (Hi0 : 0 <= INR i) by apply pos_INR.
  assert (HiN : INR i <= INR (num - 1)) by (apply le_INR; lia).
  set (N := INR (num - 1)) in *. set (x := INR i) in *.
  assert (Hq : 0 < / N) by now apply Rinv_0_lt_compat.
  assert (HNq : N * / N = 1) by (apply Rinv_r; lra).
  unfold Rdiv. set (q := / N) in *.
  assert (Hxq : 0 <= x * q <= 1) by nra.
  replace (x * ((stop - start) * q)) with ((stop - start) * (x * q)) by ring.
  nra.
Qed.

Lemma linspace_ends start stop num :
  (2 <= num)%nat ->
  hd_error (linspace start stop num) = Some start /\
  last (linspace start stop num) 0 = stop.
Proof.
  intro Hnum. unfold linspace. split.
  - destruct num as [|num]; [lia|]. cbn [seq map hd_error]. f_equal.
    simpl INR at 1. ring.
  - assert (Hseq : seq 0 num = seq 0 (num - 1) ++ [(num - 1)%nat]).
    { destruct num as [|num]; [lia|].
      replace (S num - 1)%nat with num by lia. now rewrite seq_S. }
    rewrite Hseq, map_app. cbn [map]. rewrite last_last.
    assert (HN : INR (num - 1) <> 0) by (apply not_0_INR; lia).
    field. exact HN.
Qed.

(** [np.linspace(start, stop, num)] with at least two points and
    [start <= stop] has [num] elements, starts at [start], ends at [stop] and
    stays between them. *)
Theorem linspace_spans_the_interval (start stop : R) (num : nat) :
  (2 <= num)%nat -> start <= stop ->
  List.length (linspace start stop num) = num /\
  hd_error (linspace start stop num) = Some start /\
  last (linspace start stop num) 0 = stop /\
  Forall (fun x => start <= x <= stop) (linspace start stop num).
Proof.
  intros Hnum Hle. split; [apply linspace_length|].
  destruct (linspace_ends start stop num Hnum) as [Hhd Hlast].
  split; [exact Hhd|]. split; [exact Hlast|]. now apply linspace_bounds.
Qed.

Lemma linspace_spans_the_interval_witness :
  (2 <= 200)%nat /\ -1 <= 1 /\
  List.length (linspace (-1) 1 200) = 200%nat /\
  last (linspace (-1) 1 200) 0 = 1.
Proof.
  assert (H2 : (2 <= 200)%nat) by lia.
  assert (Hle : -1 <= 1) by lra.
  destruct (linspace_spans_the_interval (-1) 1 200 H2 Hle) as (Hlen & _ & Hlast & _).
  split; [exact H2|]. split; [exact Hle|]. split; [exact Hlen | exact Hlast].
Defined.

Lemma meshgrid_shape xs ys :
  List.length (fst (meshgrid xs ys)) = List.length ys /\
  List.length (snd (meshgrid xs ys)) = List.length ys /\
  Forall (fun row => List.length row = List.length xs) (fst (meshgrid xs ys)) /\
  Forall (fun row => List.length row = List.length xs) (snd (meshgrid xs ys)).
Proof.
  unfold meshgrid. cbn [fst snd]. rewrite !length_map.
  repeat split; apply Forall_forall; intros row Hrow;
    apply in_map_iff in Hrow; destruct Hrow as [y [<- _]];
    [reflexivity | apply length_map].
Qed.

Lemma cos_theta_array_bounds :
  Forall (Forall (fun c => -1 <= c <= 1)) cos_theta_array.
Proof.
  unfold cos_theta_array, meshgrid. cbn [fst]. apply Forall_forall.
  intros row Hrow. apply in_map_iff in Hrow. destruct Hrow as [y [<- _]].
  apply linspace_bounds; [lia | lra].
Qed.

Lemma phi_array_bounds :
  Forall (Forall (fun p => 0 <= p <= 2 * PI)) phi_array.
Proof.
  unfold phi_array, meshgrid. cbn [snd]. apply Forall_forall.
  intros row Hrow. apply in_map_iff in Hrow. destruct Hrow as [y [<- Hy]].
  apply Forall_forall. intros p Hp. apply in_map_iff in Hp.
  destruct Hp as [x [<- _]].
  assert (Hb : Forall (fun x => 0 <= x <= 2 * PI) (linspace 0 (2 * PI) 400)).
  { apply linspace_bounds; [lia|]. pose proof PI_RGT_0. lra. }
  rewrite Forall_forall in Hb. now apply Hb.
Qed.

Lemma grid_shape_facts :
  List.length theta_array = 400%nat /\
  List.length phi_array = 400%nat /\
  Forall (fun row => List.length row = 200%nat) theta_array /\
  Forall (fun row => List.length row = 200%nat) phi_array.
Proof.
  destruct (meshgrid_shape (linspace (-1) 1 200) (linspace 0 (2 * PI) 400))
    as (Hc & Hp & Hcrow & Hprow).
  rewrite !linspace_length in *.
  fold cos_theta_array in Hc, Hcrow. fold phi_array in Hp, Hprow.
  split; [unfold theta_array; now rewrite length_map|].
  split; [exact Hp|]. split; [|exact Hprow].
  unfold theta_array. apply Forall_forall. intros row Hrow.
  apply in_map_iff in Hrow. destruct Hrow as [crow [<- Hcrow']].
  rewrite length_map. rewrite Forall_forall in Hcrow. now apply Hcrow.
Qed.

(** The grid of the notebook has 400 rows and 200 columns; every cosine lies
    in [-1, 1], so that [theta_array = arccos(cos_theta_array)] lies in
    [0, pi] and has the cosine it was made from; every phi lies in
    [0, 2 pi]. *)
Theorem grid_shape_and_ranges :
  List.length theta_array = 400%nat /\
  List.length phi_array = 400%nat /\
  Forall (fun row => List.length row = 200%nat) theta_array /\
  Forall (fun row => List.length row = 200%nat) phi_array /\
  Forall (Forall (fun p => 0 <= p <= 2 * PI)) phi_array /\
  Forall2 (Forall2 (fun t c => 0 <= t <= PI /\ -1 <= c <= 1 /\ cos t = c))
    theta_array cos_theta_array.
Proof.
  destruct (meshgrid_shape (linspace (-1) 1 200) (linspace 0 (2 * PI) 400))
    as (Hc & Hp & Hcrow & Hprow).
  rewrite !linspace_length in *.
  fold cos_theta_array in Hc, Hcrow. fold phi_array in Hp, Hprow.
  split; [unfold theta_array; now rewrite length_map|].
  split; [exact Hp|]. split.
  { unfold theta_array. apply Forall_forall. intros row Hrow.
    apply in_map_iff in Hrow. destruct Hrow as [crow [<- Hcrow']].
    rewrite length_map. rewrite Forall_forall in Hcrow. now apply Hcrow. }
  split; [exact Hprow|]. split; [exact phi_array_bounds|].
  unfold theta_array. pose proof cos_theta_array_bounds as Hb.
  clear Hc Hp Hcrow Hprow.
  induction Hb as [|row rows Hrow Hrows IH]; [constructor|].
  cbn [map]. constructor; [|exact IH].
  clear - Hrow. induction Hrow as [|c row Hc Hrow IH]; [constructor|].
  cbn [map]. constructor; [|exact IH].
  split; [apply acos_bound|]. split; [exact Hc | now apply cos_acos].
Qed.

(** ** The array that is drawn *)

Lemma zip_with_length {A B D : Type} (g : A -> B -> D) xs ys :
  List.length (zip_with g xs ys) = Nat.min (List.length xs) (List.length ys).
Proof. unfold zip_with. now rewrite length_map, length_combine. Qed.

Section Heatmap.

Variable sph_harm : Z -> Z -> C -> C -> C.
Variable expand : expr -> expr.
Hypothesis expand_value :
  forall rho e v, eval sph_harm rho e = Ok v -> eval sph_harm rho (expand e) = Ok v.

Lemma plot_over_arrays (ts ps : list (list R)) (rows cols : nat)
    (Phi_val Py_val : R) (mag phase : symb -> R) :
  0 <= Py_val <= 1 ->
  List.length ts = rows -> List.length ps = rows ->
  Forall (fun row => List.length row = cols) ts ->
  Forall (fun row => List.length row = cols) ps ->
  exists Zs,
    sequence
      (zip_with (fun trow prow =>
                   sequence
                     (zip_with (fun th ph =>
                                  plot_value sph_harm (intensity_func expand) th ph
                                    (controls_of amp_symbols Phi_val Py_val mag phase))
                               trow prow))
                ts ps) = Ok Zs /\
    List.length Zs = rows /\
    Forall (fun row => List.length row = cols) Zs /\
    Forall (Forall nonneg_real) Zs.
Proof.
  intros HP Ht Hp Htrow Hprow.
  set (value := fun th ph : R =>
         intensity_value sph_harm
           (fun mv kv => polar (mag (IdxS lp (IVal mv) (IVal kv)))
                               (phase (IdxS lp (IVal mv) (IVal kv))))
           (fun mv kv => polar (mag (IdxS lm (IVal mv) (IVal kv)))
                               (phase (IdxS lm (IVal mv) (IVal kv))))
           (RtoC PI) (RtoC Py_val) (RtoC th) (RtoC ph) (RtoC Phi_val)
           max_l k_values m_range).
  exists (zip_with (fun trow prow => zip_with value trow prow) ts ps).
  split; [|split; [|split]].
  - unfold zip_with at 1 3.
    apply sequence_map_Ok. intros [trow prow] _. cbn [fst snd].
    unfold zip_with. apply sequence_map_Ok. intros [th ph] _. cbn [fst snd].
    apply (plot_value_notebook sph_harm expand expand_value).
  - rewrite zip_with_length, Ht, Hp. apply Nat.min_id.
  - apply Forall_forall. intros row Hrow. unfold zip_with at 1 in Hrow.
    apply in_map_iff in Hrow. destruct Hrow as [[trow prow] [<- Hin]].
    cbn [fst snd]. rewrite zip_with_length.
    rewrite Forall_forall in Htrow, Hprow.
    rewrite (Htrow trow (in_combine_l _ _ _ _ Hin)).
    rewrite (Hprow prow (in_combine_r _ _ _ _ Hin)). apply Nat.min_id.
  - apply Forall_forall. intros row Hrow. unfold zip_with at 1 in Hrow.
    apply in_map_iff in Hrow. destruct Hrow as [[trow prow] [<- _]].
    apply Forall_forall. intros z Hz. unfold zip_with in Hz.
    apply in_map_iff in Hz. destruct Hz as [[th ph] [<- _]].
    cbn [fst snd]. unfold value. apply nonneg_intensity_value. exact HP.
Qed.

(** At every position of the sliders with a polarization between 0 and 1,
    [plot] computes over the whole grid an array of 400 rows and 200 columns
    of non-negative real numbers. *)
Theorem heatmap_is_a_nonnegative_array (Phi_val Py_val : R) (mag phase : symb -> R) :
  0 <= Py_val <= 1 ->
  exists Zs,
    plot_Z sph_harm (intensity_func expand)
      (controls_of amp_symbols Phi_val Py_val mag phase) = Ok Zs /\
    List.length Zs = 400%nat /\
    Forall (fun row => List.length row = 200%nat) Zs /\
    Forall (Forall nonneg_real) Zs.
Proof.
  intro HP. destruct grid_shape_facts as (Ht & Hp & Htrow & Hprow).
  exact (plot_over_arrays theta_array phi_array 400 200 Phi_val Py_val mag phase
           HP Ht Hp Htrow Hprow).
Qed.

End Heatmap.

Lemma heatmap_is_a_nonnegative_array_witness :
  0 <= 1 <= 1 /\
  exists Zs,
    plot_Z sph_harm_2 (intensity_func expand_nothing)
      (controls_of amp_symbols 1 1 (fun _ => 1) (fun _ => 0)) = Ok Zs /\
    List.length Zs = 400%nat.
Proof.
  assert (HP : 0 <= 1 <= 1) by lra.
  split; [exact HP|].
  destruct (heatmap_is_a_nonnegative_array sph_harm_2 expand_nothing
              (expand_nothing_value sph_harm_2) 1 1 (fun _ => 1) (fun _ => 0) HP)
    as (Zs & HZ & Hlen & _).
  exists Zs. split; [exact HZ | exact Hlen].
Defined.

(** ** The mesh that [plot] keeps *)

Lemma array_extremes_exist Zs :
  List.concat Zs <> [] -> exists lo hi, array_min Zs = Some lo /\ array_max Zs = Some hi.
Proof.
  unfold array_min, array_max. destruct (List.concat Zs); [congruence|]. eauto.
Qed.

Lemma singular_threshold_pos : 0 < 10 ^ 6 / tiny * float_tiny.
Proof.
  unfold tiny, float_tiny, Rdiv. rewrite Rinv_inv.
  apply Rmult_lt_0_compat; [apply Rmult_lt_0_compat|];
    try (apply pow_lt; lra).
  apply Rinv_0_lt_compat, pow_lt. lra.
Qed.

(** A first array of zeros gets the colour range from -0.1 to 0.1. *)
Lemma first_clim_zero : first_clim 0 0 = (- (1 / 10), 1 / 10).
Proof.
  unfold first_clim, nonsingular.
  destruct (Rlt_dec 0 0) as [H|_]; [lra|].
  rewrite Rabs_R0, Rmax_left by lra.
  destruct (Rlt_dec 0 (10 ^ 6 / tiny * float_tiny)) as [_|H]; [reflexivity|].
  exfalso. apply H, singular_threshold_pos.
Qed.

(** The range from 0 to a maximum above 0.1, which [set_clim] sets, is not
    widened. *)
Lemma nonsingular_bright (Z_max : R) :
  Z_max > 1 / 10 -> nonsingular 0 Z_max (1 / 10) = (0, Z_max).
Proof.
  intro Hbright.
  assert (Hsmall : 10 ^ 6 / tiny * float_tiny <= 1 / 10).
  { unfold tiny, float_tiny, Rdiv. rewrite Rinv_inv, <- pow_add.
    apply (Rmult_le_reg_r (2 ^ 1022)); [apply pow_lt; lra|].
    rewrite Rmult_assoc, Rinv_l, Rmult_1_r by (apply pow_nonzero; lra).
    apply Rle_trans with (1 * / 10 * 2 ^ 78).
    - rewrite !pow_IZR. apply (Rmult_le_reg_l 10); [lra|].
      replace (10 * (1 * / 10 * IZR (2 ^ Z.of_nat 78)))
        with (IZR (2 ^ Z.of_nat 78)) by field.
      rewrite <- mult_IZR. apply IZR_le. vm_compute. discriminate.
    - apply Rmult_le_compat_l; [lra|]. apply Rle_pow; [lra | lia]. }
  assert (Htiny : 0 < tiny < 1).
  { unfold tiny. split; [apply Rinv_0_lt_compat, pow_lt; lra|].
    rewrite <- Rinv_1. apply Rinv_lt_contravar.
    - rewrite Rmult_1_l. apply pow_lt. lra.
    - apply Rlt_pow_R1; [lra | lia]. }
  unfold nonsingular.
  destruct (Rlt_dec Z_max 0) as [H|_]; [lra|].
  rewrite Rabs_R0, (Rabs_right Z_max), Rmax_right by lra.
  destruct (Rlt_dec Z_max (10 ^ 6 / tiny * float_tiny)) as [H|_]; [lra|].
  destruct (Rle_dec (Z_max - 0) (Z_max * tiny)) as [H|_]; [nra | reflexivity].
Qed.

Lemma draw_all_app frames : forall MESH Zs mesh,
  draw_all MESH frames = Some mesh ->
  draw_all MESH (frames ++ [Zs]) = draw (Some mesh) Zs.
Proof.
  induction frames as [|Z0 frames IH]; intros MESH Zs mesh Hrun; simpl in *.
  - subst MESH. now destruct (draw (Some mesh) Zs).
  - destruct (draw MESH Z0) as [m1|]; [|discriminate]. now apply IH.
Qed.

Lemma draw_all_after_frames Z0 frames :
  (forall Zs, In Zs (Z0 :: frames) -> List.concat Zs <> []) ->
  exists mesh Z_min Z_max,
    draw_all None (Z0 :: frames) = Some mesh /\
    mesh_array mesh = last frames Z0 /\
    array_min Z0 = Some Z_min /\ array_max Z0 = Some Z_max /\
    match find exceeds_threshold (rev (Z0 :: frames)) with
    | Some bright => vmin mesh = 0 /\ Some (vmax mesh) = array_max bright
    | None => (vmin mesh, vmax mesh) = first_clim Z_min Z_max
    end.
Proof.
  induction frames as [|Zs frames IH] using rev_ind; intro Hne.
  - destruct (array_extremes_exist Z0) as (lo & hi & Hlo & Hhi);
      [apply Hne; now left|].
    cbn [draw_all rev app find]. unfold draw, exceeds_threshold.
    rewrite Hlo, Hhi.
    destruct (Rgt_dec hi (1 / 10)); eexists; exists lo, hi;
      (split; [reflexivity|]); (split; [reflexivity|]);
      (split; [reflexivity|]); (split; [reflexivity|]); cbn [vmin vmax].
    + rewrite Hhi. auto.
    + now destruct (first_clim lo hi).
  - destruct IH as (mesh & lo0 & hi0 & Hrun & Harr & Hlo0 & Hhi0 & Hclim).
    { intros Z HZ. apply Hne. destruct HZ as [<- | HZ]; [now left|].
      right. apply in_or_app. now left. }
    destruct (array_extremes_exist Zs) as (lo & hi & Hlo & Hhi).
    { apply Hne. right. apply in_or_app. right. now left. }
    change (Z0 :: frames ++ [Zs]) with ((Z0 :: frames) ++ [Zs]).
    rewrite (draw_all_app _ _ _ _ Hrun), rev_app_distr. cbn [rev app find].
    unfold draw, exceeds_threshold at 1. rewrite Hlo, Hhi, last_last.
    destruct (Rgt_dec hi (1 / 10)); eexists; exists lo0, hi0;
      (split; [reflexivity|]); (split; [reflexivity|]);
      (split; [exact Hlo0|]); (split; [exact Hhi0|]); cbn [vmin vmax mesh_array].
    + rewrite Hhi. auto.
    + exact Hclim.
Qed.

(** After any number of calls of [plot] on arrays that are not empty, the
    mesh shows the array of the last call.  Its colour scale runs from 0 to
    the maximum of the last array whose maximum exceeded 0.1; when no array
    did, it still is the scale of the first call: the smallest and the
    largest element of the first array, widened by the colour bar when they
    are too close to each other. *)
Theorem colour_scale_after_redraws (Z0 : list (list R)) (frames : list (list (list R))) :
  (forall Zs, In Zs (Z0 :: frames) -> List.concat Zs <> []) ->
  exists mesh Z_min Z_max,
    draw_all None (Z0 :: frames) = Some mesh /\
    mesh_array mesh = last frames Z0 /\
    array_min Z0 = Some Z_min /\ array_max Z0 = Some Z_max /\
    match find exceeds_threshold (rev (Z0 :: frames)) with
    | Some bright => vmin mesh = 0 /\ Some (vmax mesh) = array_max bright
    | None => (vmin mesh, vmax mesh) = nonsingular Z_min Z_max (1 / 10)
    end.
Proof. apply draw_all_after_frames. Qed.

Lemma colour_scale_after_redraws_witness :
  (forall Zs, In Zs [[[0; 0]]; [[0; 0]]] -> List.concat Zs <> []) /\
  exists mesh,
    draw_all None [[[0; 0]]; [[0; 0]]] = Some mesh /\
    mesh_array mesh = [[0; 0]] /\
    vmin mesh = - (1 / 10) /\ vmax mesh = 1 / 10.
Proof.
  assert (Hne : forall Zs, In Zs [[[0; 0]]; [[0; 0]]] -> List.concat Zs <> []).
  { intros Zs [<- | [<- | []]]; discriminate. }
  split; [exact Hne|].
  destruct (colour_scale_after_redraws [[0; 0]] [[[0; 0]]] Hne)
    as (mesh & lo & hi & Hrun & Harr & Hlo & Hhi & Hclim).
  exists mesh. split; [exact Hrun|]. split; [exact Harr|].
  assert (E0 : lo = 0).
  { unfold array_min in Hlo. cbn in Hlo. injection Hlo as <-.
    unfold Rmin. destruct (Rle_dec 0 0); reflexivity. }
  assert (E1 : hi = 0).
  { unfold array_max in Hhi. cbn in Hhi. injection Hhi as <-.
    unfold Rmax. destruct (Rle_dec 0 0); reflexivity. }
  subst lo hi.
  assert (Hdark : find exceeds_threshold (rev [[[0; 0]]; [[0; 0]]]) = None).
  { cbn [rev app find]. unfold exceeds_threshold, array_max.
    cbn [List.concat app fold_left].
    replace (Rmax 0 0) with 0 by (unfold Rmax; destruct (Rle_dec 0 0); reflexivity).
    destruct (Rgt_dec 0 (1 / 10)) as [H|_]; [lra | reflexivity]. }
  rewrite Hdark in Hclim. fold (first_clim 0 0) in Hclim.
  rewrite first_clim_zero in Hclim. injection Hclim as Hlo' Hhi'.
  split; assumption.
Defined.

(** ** Where the magnitude sliders start *)

Lemma contains_char_append c (a b : string) :
  contains_char c (a ++ b) = contains_char c a || contains_char c b.
Proof.
  induction a as [|x a IH]; simpl; [reflexivity|].
  rewrite IH. apply orb_assoc.
Qed.

Lemma no_plus_in_digits d :
  contains_char "+" (NilEmpty.string_of_uint d) = false.
Proof. induction d; simpl; auto. Qed.

Lemma no_plus_in_str_Z z : contains_char "+" (str_Z z) = false.
Proof.
  unfold str_Z, NilZero.string_of_int, NilZero.string_of_uint.
  destruct (Z.to_int z) as [d|d]; destruct d; simpl;
    try reflexivity; apply no_plus_in_digits.
Qed.

(** The test ["+" in s.name] tells the families apart: for integer indices
    the magnitude slider of a plus coefficient starts at 1 and the one of a
    minus coefficient at 0. *)
Theorem magnitude_sliders_start_by_family (mv kv : Z) :
  slider_value (magnitude_slider (str_symb (IdxS lp (IVal mv) (IVal kv)))) = 1 /\
  slider_value (magnitude_slider (str_symb (IdxS lm (IVal mv) (IVal kv)))) = 0.
Proof.
  unfold magnitude_slider. cbn [slider_value str_symb str_index]. split.
  - reflexivity.
  - rewrite !contains_char_append, !no_plus_in_str_Z. reflexivity.
Qed.
